(** * Blob ownership and replication coordination (blobs.go)

    A shallow embedding of the ownership manager, the replica count
    enforcer and the internode task dispatcher of [blobs.go], with the
    properties of the design document stated over it.

    Conventions of the embedding:
    - the couchbase bucket is a finite map from keys to bodies
      ([gmap string (list byte)]); a key that is absent reads as the empty
      body, which is what a compare-and-swap closure receives for it;
    - [mc.CAS] is one atomic read-modify-write of a key with the closure;
      a conflict only re-runs the closure on a fresh value, so a call that
      commits is one application of the closure to the value current at
      commit time; the bucket answers every request: a call during which
      the connection to the bucket fails is outside the model;
    - a Go [int] is a 64-bit integer whose arithmetic wraps around;
    - a Go run-time panic and [log.Fatalf] are outcomes of the [Exec]
      monad, next to normal return;
    - [time.Time] is the number of nanoseconds since the zero [time.Time];
      [time.Now()] is an input;
    - [json.Unmarshal] (standard library) and [mustEncode] (declared
      elsewhere in the package) are parameters of the development, as are
      the node directory, the transport and the local disk;
    - [internodeTaskQueue] is the list of the tasks sent and not yet
      received; a send appends and does not block;
    - logging is not modelled. *)

From Stdlib Require Import ZArith Lia DecimalString DecimalN DecimalPos.
From Stdlib Require Import Strings.Byte.
From stdpp Require Import base option list strings gmap fin_maps countable.
From stdpp Require Import relations list_numbers.

#[local] Set Warnings "-clear-no-such-hyp".

Local Open Scope string_scope.
Local Open Scope list_scope.
Local Open Scope Z_scope.

(** ** Outcomes of running Go code *)

(** [Ret a]: normal return; [Panic m]: run-time panic with message [m];
    [Fatal m]: [log.Fatalf], i.e. the message is logged and the process
    exits with status 1. *)
Inductive Exec (A : Type) : Type :=
| Ret (a : A)
| Panic (msg : string)
| Fatal (msg : string).
Arguments Ret {A} a.
Arguments Panic {A} msg.
Arguments Fatal {A} msg.

Global Instance Exec_ret : MRet Exec := λ A a, Ret a.
Global Instance Exec_bind : MBind Exec := λ A B k m,
  match m with
  | Ret a => k a
  | Panic s => Panic s
  | Fatal s => Fatal s
  end.

Definition returns {A} (m : Exec A) : Prop := ∃ a, m = Ret a.

(** ** Go integers *)

(** The type [int] of the 64-bit platforms: an addition or subtraction
    that leaves the range wraps around. *)
Definition minInt : Z := - 2 ^ 63.
Definition maxInt : Z := 2 ^ 63 - 1.
Definition int_wrap (z : Z) : Z := (z + 2 ^ 63) mod 2 ^ 64 - 2 ^ 63.
Definition int_add (a b : Z) : Z := int_wrap (a + b).
Definition int_sub (a b : Z) : Z := int_wrap (a - b).

(** ** Time *)

(** Nanoseconds since the zero [time.Time] (January 1, year 1, UTC). *)
Definition Time := Z.
Definition zeroTime : Time := 0.

(** [time.Duration] is an int64 count of nanoseconds. *)
Definition maxDuration : Z := 2 ^ 63 - 1.
Definition minDuration : Z := - 2 ^ 63.
Definition Hour : Z := 3600 * 1000000000.

(** [t.Sub(u)]: the difference, saturated to the range of a Duration. *)
Definition time_Sub (t u : Time) : Z :=
  if t - u <? minDuration then minDuration
  else if maxDuration <? t - u then maxDuration
  else t - u.

(** [time.Since(t)] is [time.Now().Sub(t)]. *)
Definition time_Since (now t : Time) : Z := time_Sub now t.

(** ** Data model *)

(** A Go [map[string]T]: [None] is the nil map, [Some m] an allocated
    one.  Reading, [len] and [delete] work on both; assignment to an
    entry of the nil map panics. *)
Definition gomap (T : Type) := option (gmap string T).

Definition gomap_get {T} (m : gomap T) (k : string) : option T :=
  match m with
  | None => None
  | Some m => m !! k
  end.

Definition gomap_len {T} (m : gomap T) : Z :=
  match m with
  | None => 0
  | Some m => Z.of_nat (size m)
  end.

Definition gomap_delete {T} (m : gomap T) (k : string) : gomap T :=
  match m with
  | None => None
  | Some m => Some (delete k m)
  end.

Definition gomap_set {T} (m : gomap T) (k : string) (v : T) : Exec (gomap T) :=
  match m with
  | None => Panic "assignment to entry in nil map"
  | Some m => Ret (Some (<[k := v]> m))
  end.

Definition gomap_keys {T} (m : gomap T) : gset string :=
  match m with
  | None => ∅
  | Some m => dom m
  end.

(** [type BlobOwnership struct]. The field [Type] is spelled [Type_]. *)
Record BlobOwnership := {
  OID : string;
  Length : Z;
  Nodes : gomap Time;
  Type_ : string
}.

(** [BlobOwnership{}] *)
Definition BlobOwnership_zero : BlobOwnership :=
  {| OID := ""; Length := 0; Nodes := None; Type_ := "" |}.

Definition with_Nodes (b : BlobOwnership) (m : gomap Time) : BlobOwnership :=
  {| OID := OID b; Length := Length b; Nodes := m; Type_ := Type_ b |}.

(** [type internodeCommand uint8] and its three constants. *)
Definition internodeCommand := Z.
Definition removeObjectCmd : internodeCommand := 0.
Definition acquireObjectCmd : internodeCommand := 1.
Definition fetchObjectCmd : internodeCommand := 2.

(** The part of [globalConfig] read by this file; the three fields are
    Go [int]s, so their values lie between [minInt] and [maxInt]. *)
Record Config := {
  MinReplicas : Z;
  MaxReplicas : Z;
  ReplicationCheckLimit : Z
}.

(** Package-level variables: the id of the local node and the
    configuration. *)
Record Globals := {
  serverId : string;
  globalConfig : Config
}.

(** ** The bucket *)

Abbreviation Store := (gmap string (list byte)).

(** [memcached.CasOp] *)
Inductive CasOp := CASStore | CASQuit | CASDelete.

(** Go [error] values that occur in this file. [CASQuit] doubles as an
    error value in the client library. *)
Inductive error :=
| ErrCASQuit
| ErrNew (msg : string)
| ErrJSON
| ErrStore.

Global Instance CasOp_eq_dec : EqDecision CasOp.
Proof. solve_decision. Defined.
Global Instance error_eq_dec : EqDecision error.
Proof. solve_decision. Defined.

(** The body a closure receives for key [k]. *)
Definition body_of (st : Store) (k : string) : list byte :=
  default [] (st !! k).

(** [mc.CAS(vb, k, f, 0)] under [couchbase.Do]: the closure [f] is run on
    the current body together with the variables it captures (of type
    [X]); [CASStore] writes the returned body, [CASDelete] removes the
    key, [CASQuit] leaves the bucket alone and is reported as the error
    value [CASQuit].  This is the call that nobody interferes with and
    that the bucket answers: the closure is applied once, and neither
    the read nor the write fails.  The retry after a conflict is the
    subject of the section on concurrent affirmations. *)
Definition mc_CAS {X : Type} (k : string)
    (f : list byte → X → Exec (X * (list byte * CasOp)))
    (x : X) (st : Store) : Exec (X * Store * option error) :=
  '(x', (v, op)) ← f (body_of st k) x;
  match op with
  | CASStore => Ret (x', <[k := v]> st, None)
  | CASQuit => Ret (x', st, Some ErrCASQuit)
  | CASDelete => Ret (x', delete k st, None)
  end.

(** [couchbase.Delete(k)]; the result is ignored by every caller here. *)
Definition couchbase_Delete (k : string) (st : Store) : Store := delete k st.

(** Counters are kept as decimal text, as memcached does. *)
Definition showCounter (n : N) : list byte :=
  String.list_byte_of_string (NilZero.string_of_uint (N.to_uint n)).
Definition parseCounter (b : list byte) : option N :=
  N.of_uint <$> NilZero.uint_of_string (String.string_of_list_byte b).

(** [couchbase.Incr(k, amt, def, 0)]: an absent key is created with
    [def]; a numeric body is incremented modulo 2^64; anything else is
    an error and the bucket is unchanged. *)
Definition couchbase_Incr (k : string) (amt def : N) (st : Store)
    : Store * option error :=
  match st !! k with
  | None => (<[k := showCounter def]> st, None)
  | Some b =>
      match parseCounter b with
      | Some n => (<[k := showCounter ((n + amt) mod 2 ^ 64)%N]> st, None)
      | None => (st, Some ErrStore)
      end
  end.

(** ** View queries and the observable actions of a node *)

(** A value of the [map[string]interface{}] handed to [ViewCustom]. *)
Inductive ParamValue :=
| PBool (b : bool)
| PInt (n : Z).

Abbreviation ViewParams := (gmap string ParamValue).

(** [s[1:]] on a Go string: panics on the empty string. *)
Definition str_from1 (s : string) : Exec string :=
  match s with
  | EmptyString => Panic "slice bounds out of range"
  | String _ rest => Ret rest
  end.

Section Model.

(** *** Parameters: code that is not part of blobs.go *)

(** [json.Unmarshal(in, &ownership)] on a zero [BlobOwnership]: [None]
    is a decoding error, [Some b] the decoded record. *)
Variable json_Unmarshal : list byte → option BlobOwnership.
(** [mustEncode(&ownership)]; encoding an ownership record does not
    fail. *)
Variable mustEncode : BlobOwnership → list byte.

(** [type StorageNode struct], of which this file reads the name. *)
Context {StorageNode : Type}.
Variable name : StorageNode → string.
(** [nl.candidatesFor(oid, exclude)] and [nl.named(name)] *)
Variable candidatesFor :
  list StorageNode → string → list StorageNode → list StorageNode.
Variable named : list StorageNode → string → StorageNode.

(** *** Ownership manager *)

(** The closure of [recordBlobOwnership]; it captures nothing that it
    assigns. *)
Definition recordBlobOwnership_cas (g : Globals) (h : string) (l : Z)
    (force : bool) (now : Time) (inb : list byte) (_ : unit)
    : Exec (unit * (list byte * CasOp)) :=
  match json_Unmarshal inb with
  | Some ownership =>
      if bool_decide (is_Some (gomap_get (Nodes ownership) (serverId g)))
         && negb force
      then Ret ((), ([], CASQuit))
      else
        nodes ← gomap_set (Nodes ownership) (serverId g) now;
        Ret ((), (mustEncode {| OID := h; Length := l;
                                Nodes := nodes; Type_ := "blob" |},
                  CASStore))
  | None =>
      Ret ((), (mustEncode {| OID := h; Length := l;
                              Nodes := Some {[ serverId g := now ]};
                              Type_ := "blob" |},
                CASStore))
  end.

Definition recordBlobOwnership (g : Globals) (h : string) (l : Z)
    (force : bool) (now : Time) (st : Store)
    : Exec (Store * option error) :=
  let k := "/" +:+ h in
  '(_, st, err) ← mc_CAS k (recordBlobOwnership_cas g h l force now) () st;
  let err := if decide (err = Some ErrCASQuit) then None else err in
  Ret (st, err).

Definition recordBlobAccess (g : Globals) (h : string) (st : Store)
    : Store :=
  let '(st, _) := couchbase_Incr (("/" +:+ h) +:+ "/r") 1 1 st in
  let '(st, _) := couchbase_Incr (("/" +:+ serverId g) +:+ "/r") 1 1 st in
  st.

(** The closure of [removeBlobOwnershipRecord]; it assigns the captured
    [numOwners]. *)
Definition removeBlobOwnershipRecord_cas (g : Globals) (node : string)
    (inb : list byte) (numOwners : Z)
    : Exec (Z * (list byte * CasOp)) :=
  if (length inb =? 0)%nat then Ret (numOwners, ([], CASQuit))
  else
    match json_Unmarshal inb with
    | Some ownership =>
        let ownership :=
          with_Nodes ownership (gomap_delete (Nodes ownership) node) in
        let numOwners := gomap_len (Nodes ownership) in
        if (gomap_len (Nodes ownership) =? 0)
           && bool_decide (node = serverId g)
        then Ret (numOwners, ([], CASDelete))
        else Ret (numOwners, (mustEncode ownership, CASStore))
    | None => Ret (numOwners, ([], CASQuit))
    end.

(** Returns the bucket and the number of known owners (-1 if it cannot
    be determined). *)
Definition removeBlobOwnershipRecord (g : Globals) (h node : string)
    (st : Store) : Exec (Store * Z) :=
  let numOwners := -1 in
  let k := "/" +:+ h in
  '(numOwners, st, err) ←
    mc_CAS k (removeBlobOwnershipRecord_cas g node) numOwners st;
  let numOwners :=
    if bool_decide (err ≠ None ∧ err ≠ Some ErrCASQuit) then -1
    else numOwners in
  let st :=
    if numOwners =? 0 then couchbase_Delete (k +:+ "/r") st else st in
  Ret (st, numOwners).

(** The closure of [maybeRemoveBlobOwnership]; it assigns the captured
    result [rv] and the flag [removedLast]. *)
Definition maybeRemoveBlobOwnership_cas (g : Globals) (now : Time)
    (inb : list byte) (captured : option error * bool)
    : Exec ((option error * bool) * (list byte * CasOp)) :=
  let '(rv, _) := captured in
  let removedLast := false in
  if (length inb =? 0)%nat then Ret ((rv, removedLast), ([], CASQuit))
  else
    match json_Unmarshal inb with
    | Some ownership =>
        if time_Since now
             (default zeroTime (gomap_get (Nodes ownership) (serverId g)))
           <? Hour
        then Ret ((Some (ErrNew "too soon"), removedLast), ([], CASQuit))
        else if gomap_len (Nodes ownership) - 1
                <? MinReplicas (globalConfig g)
        then Ret ((Some (ErrNew "Insufficient replicas"), removedLast),
                  ([], CASQuit))
        else
          let ownership :=
            with_Nodes ownership
              (gomap_delete (Nodes ownership) (serverId g)) in
          if gomap_len (Nodes ownership) =? 0
          then Ret ((rv, true), ([], CASDelete))
          else Ret ((rv, removedLast), (mustEncode ownership, CASStore))
    | None => Ret ((Some ErrJSON, removedLast), ([], CASQuit))
    end.

Definition maybeRemoveBlobOwnership (g : Globals) (h : string)
    (now : Time) (st : Store) : Exec (Store * option error) :=
  let k := "/" +:+ h in
  '(rv, removedLast, st, _) ←
    mc_CAS k (maybeRemoveBlobOwnership_cas g now) (None, false) st;
  let st :=
    if removedLast : bool then couchbase_Delete (k +:+ "/r") st else st in
  Ret (st, rv).

(** [getBlobOwnership]: the decoded record of a blob, or an error.  With
    the error for a missing key the code returns the zero record; with a
    decoding error it returns what [json.Unmarshal] had filled in by
    then, for which the zero record stands here. *)
Definition getBlobOwnership (h : string) (st : Store)
    : BlobOwnership * option error :=
  let oidkey := "/" +:+ h in
  match st !! oidkey with
  | None => (BlobOwnership_zero, Some ErrStore)
  | Some body =>
      match json_Unmarshal body with
      | Some rv => (rv, None)
      | None => (BlobOwnership_zero, Some ErrJSON)
      end
  end.

(** One call of [recordBlobOwnership] for a blob, as made by the node
    [aff_node]. *)
Record Affirmation := {
  aff_node : string;
  aff_length : Z;
  aff_force : bool;
  aff_now : Time
}.

(** Affirmations of one blob by several nodes, in the order in which
    their compare-and-swap commits. *)
Fixpoint affirmAll (cfg : Config) (h : string) (calls : list Affirmation)
    (st : Store) : Exec Store :=
  match calls with
  | [] => Ret st
  | c :: calls =>
      '(st, _) ←
        recordBlobOwnership {| serverId := aff_node c; globalConfig := cfg |}
          h (aff_length c) (aff_force c) (aff_now c) st;
      affirmAll cfg h calls st
  end.

(** *** Internode tasks, the queue and the world of a node *)

(** [type internodeTask struct] *)
Record internodeTask := {
  node : StorageNode;
  cmd : internodeCommand;
  oid : string;
  prevNode : string
}.

(** Requests that leave the node, in the order they are made. *)
Inductive Event :=
| EvSleep (seconds : Z)
| EvView (ddoc view : string) (params : ViewParams)
| EvRemotePull (blob : string) (cachePerc : Z)
| EvDeleteBlob (n : StorageNode) (blob : string)
| EvAcquireBlob (n : StorageNode) (blob prev : string).

(** What the code of this file acts on: the bucket, the contents of
    [internodeTaskQueue] (oldest first) and the requests made so far. *)
Record World := {
  store : Store;
  queue : list internodeTask;
  trace : list Event
}.

Definition set_store (w : World) (st : Store) : World :=
  {| store := st; queue := queue w; trace := trace w |}.
Definition set_queue (w : World) (q : list internodeTask) : World :=
  {| store := store w; queue := q; trace := trace w |}.
Definition emit (ev : Event) (w : World) : World :=
  {| store := store w; queue := queue w; trace := trace w ++ [ev] |}.

(** The answers of the collaborators during one call. *)
Record Env := {
  (** [time.Now()] *)
  now : Time;
  (** [os.Stat] of the local file of a blob: the size, or an error *)
  os_Stat : string → option Z;
  (** [getBlobFromRemote(&c, oid, ...)]: the error and [c.statusCode] *)
  getBlobFromRemote : string → option error * Z;
  (** [findNode(name)] *)
  findNode : string → option StorageNode;
  (** [findAllNodes()] *)
  findAllNodes : option (list StorageNode);
  (** how many times in a row [taskRunning("garbageCollectBlobs")]
      answers true *)
  gcPolls : nat;
  (** [couchbase.ViewCustom(ddoc, view, params, &viewRes)]: the ids of
      the rows, or an error *)
  ViewCustom : string → string → ViewParams → option (list string);
  (** methods of [StorageNode] *)
  deleteBlob : StorageNode → string → option error;
  IsDead : StorageNode → bool;
  acquireBlob : StorageNode → string → string → option error
}.

(** A send on the channel appends to the queue. *)
Definition queueBlobRemoval (n : StorageNode) (o : string) (w : World)
    : World :=
  set_queue w (queue w ++ [{| node := n; cmd := removeObjectCmd;
                              oid := o; prevNode := "" |}]).

Definition queueBlobAcquire (n : StorageNode) (o prev : string)
    (w : World) : World :=
  set_queue w (queue w ++ [{| node := n; cmd := acquireObjectCmd;
                              oid := o; prevNode := prev |}]).

(** *** Replica count enforcer *)

Definition salvageBlob (o deadNode : string) (nl : list StorageNode)
    (w : World) : World :=
  let candidates := candidatesFor nl o [named nl deadNode] in
  match candidates with
  | [] => w
  | c0 :: _ => queueBlobAcquire c0 o deadNode w
  end.

(** The loop that waits for the garbage collector. *)
Fixpoint waitForGC (polls : nat) (w : World) : World :=
  match polls with
  | O => w
  | S polls => waitForGC polls (emit (EvSleep 5) w)
  end.

(** The loop over the rows of the view. *)
Fixpoint salvageRows (rows : list string) (nl : list StorageNode)
    (w : World) : Exec World :=
  match rows with
  | [] => Ret w
  | id :: rows =>
      o ← str_from1 id;
      salvageRows rows nl (salvageBlob o "" nl w)
  end.

Definition ensureMinimumReplicaCountTask (e : Env) (g : Globals)
    (w : World) : Exec (World * option error) :=
  let w := waitForGC (gcPolls e) w in
  match findAllNodes e with
  | None => Ret (w, Some ErrStore)
  | Some nl =>
      let endKey := int_sub (MinReplicas (globalConfig g)) 1 in
      let endKey :=
        if MinReplicas (globalConfig g) >? Z.of_nat (length nl)
        then int_sub (Z.of_nat (length nl)) 1 else endKey in
      let params : ViewParams :=
        {[ "reduce" := PBool false;
           "limit" := PInt (ReplicationCheckLimit (globalConfig g));
           "startkey" := PInt 1;
           "endkey" := PInt endKey;
           "stale" := PBool false ]} in
      let w := emit (EvView "cbfs" "repcounts" params) w in
      match ViewCustom e "cbfs" "repcounts" params with
      | None => Ret (w, Some ErrStore)
      | Some rows =>
          w ← salvageRows rows nl w;
          Ret (w, None)
      end
  end.

(** [nm]: the node list indexed by name; a later node of the same name
    replaces an earlier one. *)
Definition nodesByName (nl : list StorageNode) : gmap string StorageNode :=
  foldl (λ nm n, <[name n := n]> nm) ∅ nl.

(** The [range] loop of [pruneBlob] over the keys of [nodemap], in the
    order in which the iteration yields them. *)
Fixpoint pruneLoop (g : Globals) (o : string)
    (nm : gmap string StorageNode) (remaining : Z) (keys : list string)
    (w : World) : World :=
  match keys with
  | [] => w
  | n :: keys =>
      if remaining <=? MaxReplicas (globalConfig g) then w
      else
        let remaining := remaining - 1 in
        let w :=
          match nm !! n with
          | Some sn => queueBlobRemoval sn o w
          | None => w
          end in
        pruneLoop g o nm remaining keys w
  end.

(** [nodemap] is given by its entries in iteration order. *)
Definition pruneBlob (g : Globals) (o : string)
    (nodemap : list (string * string)) (nl : list StorageNode)
    (w : World) : World :=
  let nm := nodesByName nl in
  let remaining := Z.of_nat (length nodemap) in
  pruneLoop g o nm remaining (nodemap.*1) w.

(** *** Blob transfer orchestrator *)

Definition performFetch (e : Env) (g : Globals) (o prev : string)
    (w : World) : Exec World :=
  match os_Stat e o with
  | Some size =>
      '(st, _) ← recordBlobOwnership g o size false (now e) (store w);
      Ret (set_store w st)
  | None =>
      let w := emit (EvRemotePull o 100) w in
      let '(err, statusCode) := getBlobFromRemote e o in
      if bool_decide (err = None) && (statusCode =? 200) then
        if bool_decide (prev ≠ "") then
          match findNode e prev with
          | None =>
              '(st, _) ← removeBlobOwnershipRecord g o prev (store w);
              Ret (set_store w st)
          | Some n => Ret (queueBlobRemoval n o w)
          end
        else Ret w
      else Ret w
  end.

(** *** Node task dispatcher *)

(** The body of the worker loop for one received task.  Errors of the
    node are logged only; the message of the fatal error also names the
    task, which is left out here. *)
Definition runTask (e : Env) (g : Globals) (c : internodeTask)
    (w : World) : Exec World :=
  if cmd c =? removeObjectCmd then
    let w := emit (EvDeleteBlob (node c) (oid c)) w in
    match deleteBlob e (node c) (oid c) with
    | Some _ =>
        if IsDead e (node c) then
          '(st, _) ← removeBlobOwnershipRecord g (oid c) (name (node c))
                        (store w);
          Ret (set_store w st)
        else Ret w
    | None => Ret w
    end
  else if cmd c =? acquireObjectCmd then
    let w := emit (EvAcquireBlob (node c) (oid c) (prevNode c)) w in
    match acquireBlob e (node c) (oid c) (prevNode c) with
    | Some _ => Ret w
    | None => Ret w
    end
  else if cmd c =? fetchObjectCmd then
    performFetch e g (oid c) (prevNode c) w
  else Fatal "Unhandled worker task".

(** [internodeTaskWorker]: receive the oldest task and run it, until
    the queue is empty (the worker then blocks) or [fuel] tasks have
    been run. *)
Fixpoint internodeTaskWorker (fuel : nat) (e : Env) (g : Globals)
    (w : World) : Exec World :=
  match fuel with
  | O => Ret w
  | S fuel =>
      match queue w with
      | [] => Ret w
      | c :: rest =>
          w ← runTask e g c (set_queue w rest);
          internodeTaskWorker fuel e g w
      end
  end.

End Model.

Arguments internodeTask : clear implicits.
Arguments Event : clear implicits.
Arguments World : clear implicits.
Arguments Env : clear implicits.

(** ** Concurrent affirmations

    The concurrency model of the design for one blob: a read yields the
    body of the record together with its version; the closure is run on
    what was read; a store succeeds only if the version is still the one
    that was read, and then bumps it; on a conflict the caller reads
    again and re-runs the closure. *)

(** Where a caller of [recordBlobOwnership] is in its loop. *)
Inductive Phase :=
| Idle
| HasRead (body : list byte) (version : nat)
| Finished.

Global Instance byte_eq_dec : EqDecision byte := Byte.byte_eq_dec.
Global Instance Phase_eq_dec : EqDecision Phase.
Proof. solve_decision. Defined.

(** The record of the blob in the bucket; the empty body is the absent
    record. *)
Record Cell := {
  cell_body : list byte;
  cell_version : nat
}.

Section Concurrency.

Variable json_Unmarshal : list byte → option BlobOwnership.
Variable mustEncode : BlobOwnership → list byte.
Variable cfg : Config.
Variable h : string.

(** The closure of the call [c], run on [body]. *)
Definition closureOf (c : Affirmation) (body : list byte)
    : Exec (unit * (list byte * CasOp)) :=
  recordBlobOwnership_cas json_Unmarshal mustEncode
    {| serverId := aff_node c; globalConfig := cfg |}
    h (aff_length c) (aff_force c) (aff_now c) body ().

(** One step of one caller. A closure that panics has no step. *)
Inductive caller_step (c : Affirmation)
    : Cell → Phase → Cell → Phase → Prop :=
| step_read cl :
    caller_step c cl Idle cl (HasRead (cell_body cl) (cell_version cl))
| step_quit cl body ver v :
    closureOf c body = Ret ((), (v, CASQuit)) →
    caller_step c cl (HasRead body ver) cl Finished
| step_store cl body ver v :
    closureOf c body = Ret ((), (v, CASStore)) →
    ver = cell_version cl →
    caller_step c cl (HasRead body ver)
      {| cell_body := v; cell_version := S ver |} Finished
| step_conflict cl body ver v :
    closureOf c body = Ret ((), (v, CASStore)) →
    ver ≠ cell_version cl →
    caller_step c cl (HasRead body ver) cl Idle.

(** The callers race: any one of them takes the next step. *)
Inductive race_step
    : Cell * list (Affirmation * Phase) →
      Cell * list (Affirmation * Phase) → Prop :=
| race_step_at cl cl' pre c ph ph' post :
    caller_step c cl ph cl' ph' →
    race_step (cl, (pre ++ (c, ph) :: post)%list)
      (cl', (pre ++ (c, ph') :: post)%list).

(** All callers are about to start and the record is absent. *)
Definition race_start (calls : list Affirmation)
    : Cell * list (Affirmation * Phase) :=
  ({| cell_body := []; cell_version := 0 |}, (λ c, (c, Idle)) <$> calls).

Definition race_done (s : Cell * list (Affirmation * Phase)) : Prop :=
  Forall (λ cp, cp.2 = Finished) s.2.

(** The owners named by a body. *)
Definition owners_of (body : list byte) : gset string :=
  match json_Unmarshal body with
  | Some b => gomap_keys (Nodes b)
  | None => ∅
  end.

(** The invariant of the race.  A body that has been in the cell is
    absent or the encoding of a record with an allocated owner map whose
    owners are still owners; a caller that has read holds such a body,
    which is the current one if its version is; a caller that has
    finished is an owner; every owner is a caller. *)
Definition body_ok (cl : Cell) (body : list byte) : Prop :=
  body = [] ∨
  ∃ b m, body = mustEncode b ∧ Nodes b = Some m ∧
         dom m ⊆ owners_of (cell_body cl).

Definition phase_ok (cl : Cell) (cp : Affirmation * Phase) : Prop :=
  match cp.2 with
  | Idle => True
  | HasRead body ver =>
      (ver ≤ cell_version cl)%nat ∧
      (ver = cell_version cl → body = cell_body cl) ∧
      body_ok cl body
  | Finished => aff_node cp.1 ∈ owners_of (cell_body cl)
  end.

Definition race_inv (s : Cell * list (Affirmation * Phase)) : Prop :=
  body_ok s.1 (cell_body s.1) ∧
  Forall (phase_ok s.1) s.2 ∧
  owners_of (cell_body s.1) ⊆ list_to_set (aff_node <$> s.2.*1).

End Concurrency.

(** A measure that every step of the race decreases: a caller that has
    not finished counts for [2 * N + 1]; on top of that a caller about to
    read weighs 2, one that holds the current version 1 and one that
    holds an old version 3. *)
Definition phase_weight (cl : Cell) (cp : Affirmation * Phase) : nat :=
  match cp.2 with
  | Idle => 2
  | HasRead _ ver => if decide (ver = cell_version cl) then 1 else 3
  | Finished => 0
  end.

Definition pending (cp : Affirmation * Phase) : nat :=
  match cp.2 with
  | Finished => 0
  | _ => 1
  end.

Definition race_measure (s : Cell * list (Affirmation * Phase)) : nat :=
  (2 * length s.2 + 1) * sum_list_with pending s.2
  + sum_list_with (phase_weight s.1) s.2.

(** ** The rest of the file

    The functions of [blobs.go] next to the ones above: the most recent
    storer of a blob, the two other enforcement entry points and the
    third way to enqueue a task. *)

(** [s[:hi]] on a Go slice whose length exceeds [hi]: panics when [hi]
    is negative. *)
Definition slice_to {A} (s : list A) (hi : Z) : Exec (list A) :=
  if hi <? 0 then Panic "slice bounds out of range"
  else Ret (take (Z.to_nat hi) s).

(** [b.mostRecent()]; the owner map is given by its entries in iteration
    order, [t.After(rvt)] is [rvt < t]. *)
Definition mostRecent (nodes : list (string * Time)) : string * Time :=
  foldl (λ rv nt, if rv.2 <? nt.2 then nt else rv) ("", zeroTime) nodes.

Section RestOfTheFile.

Variable json_Unmarshal : list byte → option BlobOwnership.
Variable mustEncode : BlobOwnership → list byte.
Context {StorageNode : Type}.
Variable name : StorageNode → string.
Variable candidatesFor :
  list StorageNode → string → list StorageNode → list StorageNode.
(** [StorageNode{}] *)
Variable zeroNode : StorageNode.

(** [increaseReplicaCount(oid, length, by)]; [length] is not used by the
    code. *)
Definition increaseReplicaCount (e : Env StorageNode) (o : string)
    (length_ : Z) (by_ : Z) (w : World StorageNode)
    : Exec (World StorageNode * option error) :=
  match findAllNodes e with
  | None => Ret (w, Some ErrStore)
  | Some nl =>
      let onto := candidatesFor nl o [] in
      onto ← (if Z.of_nat (length onto) >? by_ then slice_to onto by_
              else Ret onto);
      Ret (foldl (λ w n, queueBlobAcquire n o "" w) w onto, None)
  end.

(** The loop of [pruneExcessiveReplicas] over the rows of the view; a row
    is its id and the entries of its owner map in iteration order. *)
Fixpoint pruneRows (g : Globals)
    (rows : list (string * list (string * string)))
    (nl : list StorageNode) (w : World StorageNode)
    : Exec (World StorageNode) :=
  match rows with
  | [] => Ret w
  | r :: rows =>
      o ← str_from1 r.1;
      pruneRows g rows nl (pruneBlob name g o r.2 nl w)
  end.

(** [pruneExcessiveReplicas()]; [viewDocs] is [couchbase.ViewCustom] for
    a query that includes the documents. *)
Definition pruneExcessiveReplicas
    (viewDocs : string → string → ViewParams →
                option (list (string * list (string * string))))
    (e : Env StorageNode) (g : Globals) (w : World StorageNode)
    : Exec (World StorageNode * option error) :=
  match findAllNodes e with
  | None => Ret (w, Some ErrStore)
  | Some nl =>
      let params : ViewParams :=
        {[ "descending" := PBool true;
           "reduce" := PBool false;
           "include_docs" := PBool true;
           "limit" := PInt (ReplicationCheckLimit (globalConfig g));
           "endkey" := PInt (int_add (MaxReplicas (globalConfig g)) 1);
           "stale" := PBool false ]} in
      let w := emit (EvView "cbfs" "repcounts" params) w in
      match viewDocs "cbfs" "repcounts" params with
      | None => Ret (w, Some ErrStore)
      | Some rows =>
          if (length rows =? 0)%nat then Ret (w, None)
          else
            w ← pruneRows g rows nl w;
            Ret (w, None)
      end
  end.

(** [queueBlobFetch(oid, prev)]: the task has no target node. *)
Definition queueBlobFetch (o prev : string) (w : World StorageNode)
    : World StorageNode :=
  set_queue w (queue w ++ [{| node := zeroNode; cmd := fetchObjectCmd;
                              oid := o; prevNode := prev |}]).

End RestOfTheFile.

(** A task with one of the three commands of the file. *)
Definition knownCommand {StorageNode : Type}
    (c : internodeTask StorageNode) : Prop :=
  cmd c = removeObjectCmd ∨ cmd c = acquireObjectCmd ∨
  cmd c = fetchObjectCmd.

(** The value of the counter at key [k]: 0 when the key is absent. *)
Definition counterAt (st : Store) (k : string) : option N :=
  match st !! k with
  | None => Some 0%N
  | Some b => parseCounter b
  end.

(** What a task can cost the worker: a fetch may enqueue one removal. *)
Definition taskCost {StorageNode : Type} (c : internodeTask StorageNode)
    : nat :=
  if cmd c =? fetchObjectCmd then 2%nat else 1%nat.

(** ** Vocabulary of the statements *)

(** The task that [queueBlobRemoval] sends, and the one
    [queueBlobAcquire] sends. *)
Definition removalTask {StorageNode : Type} (o : string) (n : StorageNode)
    : internodeTask StorageNode :=
  {| node := n; cmd := removeObjectCmd; oid := o; prevNode := "" |}.

Definition acquireTask {StorageNode : Type} (o prev : string)
    (n : StorageNode) : internodeTask StorageNode :=
  {| node := n; cmd := acquireObjectCmd; oid := o; prevNode := prev |}.

(** A string without its first byte (the empty string for the empty
    string). *)
Definition str_tail (s : string) : string :=
  match s with
  | EmptyString => EmptyString
  | String _ rest => rest
  end.

(** ** Laws of the codec *)

(** What the development assumes of [json.Unmarshal] and [mustEncode]
    where a run reads back what an earlier call wrote: the empty input
    does not decode, and an encoded record decodes to itself (a nil
    [nodes] map is written as [null] and read back as nil, an allocated
    one as an object). *)
Record CodecLaws (json_Unmarshal : list byte → option BlobOwnership)
    (mustEncode : BlobOwnership → list byte) : Prop := {
  unmarshal_empty : json_Unmarshal [] = None;
  unmarshal_encode : ∀ b, json_Unmarshal (mustEncode b) = Some b
}.

(** ** A reference codec

    A concrete codec that satisfies [CodecLaws], used to run the model on
    concrete buckets.  A record is numbered through its [Countable]
    instance and the number is written bit by bit. *)

Definition BlobOwnership_to_tuple (b : BlobOwnership)
    : string * Z * option (gmap string Z) * string :=
  (OID b, Length b, Nodes b, Type_ b).

Definition BlobOwnership_of_tuple
    (t : string * Z * option (gmap string Z) * string) : BlobOwnership :=
  let '(o, l, n, ty) := t in
  {| OID := o; Length := l; Nodes := n; Type_ := ty |}.

Global Instance BlobOwnership_eq_dec : EqDecision BlobOwnership.
Proof. unfold gomap, Time. solve_decision. Defined.

Global Instance BlobOwnership_countable : Countable BlobOwnership.
Proof.
  refine (inj_countable' BlobOwnership_to_tuple BlobOwnership_of_tuple _).
  by intros [].
Defined.

Fixpoint bytes_of_pos (p : positive) : list byte :=
  match p with
  | xH => [x2e]
  | xO p => x30 :: bytes_of_pos p
  | xI p => x31 :: bytes_of_pos p
  end.

Fixpoint pos_of_bytes (l : list byte) : option positive :=
  match l with
  | [] => None
  | c :: l' =>
      if Byte.eqb c x30 then xO <$> pos_of_bytes l'
      else if Byte.eqb c x31 then xI <$> pos_of_bytes l'
      else if Byte.eqb c x2e then
        match l' with [] => Some xH | _ => None end
      else None
  end.

Definition ref_Encode (b : BlobOwnership) : list byte :=
  bytes_of_pos (encode b).

Definition ref_Unmarshal (l : list byte) : option BlobOwnership :=
  pos_of_bytes l ≫= decode.

(** ** Concrete buckets, nodes and environments

    The inputs of the runs that close the development.  Node
    descriptors are their names; the blob is ["h"]; [A] is the local
    node. *)

Definition configWith (min max : Z) : Config :=
  {| MinReplicas := min; MaxReplicas := max; ReplicationCheckLimit := 100 |}.

Definition localA (min : Z) : Globals :=
  {| serverId := "A"; globalConfig := configWith min 3 |}.

Definition ownedBy (nodes : gomap Time) : BlobOwnership :=
  {| OID := "h"; Length := 10; Nodes := nodes; Type_ := "blob" |}.

(** A bucket with the record of ["h"], the counter of the blob and the
    counter of node [A]. *)
Definition bucketOf (b : BlobOwnership) : Store :=
  {[ "/h" := ref_Encode b;
     "/h/r" := showCounter 5;
     "/A/r" := showCounter 7 ]}.

(** The bucket after node [A] has stored the blob ["h"] in an empty
    bucket and served one read of it. *)
Definition bucketAfterOneRead : Store :=
  match recordBlobOwnership ref_Unmarshal ref_Encode (localA 0) "h" 10
          false 0 ∅ with
  | Ret (st, _) => recordBlobAccess (localA 0) "h" st
  | _ => ∅
  end.

(** The bucket of a blob that [A] alone owns, affirmed at time 0. *)
Definition bucketOfA : Store := bucketOf (ownedBy (Some {[ "A" := 0 ]})).

Definition emptyWorld : World string :=
  {| store := ∅; queue := []; trace := [] |}.

(** An environment in which the blob is not on the local disk, the pull
    from a peer answers [pull], and the directory knows node [B] only. *)
Definition envWith (pull : option error * Z) : Env string :=
  {| now := 2 * Hour;
     os_Stat := λ _, None;
     getBlobFromRemote := λ _, pull;
     findNode := λ n, if decide (n = "B") then Some "B" else None;
     findAllNodes := Some ["n1"; "n2"];
     gcPolls := 2;
     ViewCustom := λ _ _ _, Some ["/x"; "/y"];
     deleteBlob := λ _ _, None;
     IsDead := λ _, false;
     acquireBlob := λ _ _ _, None |}.

(** The same with the blob on the local disk, 10 bytes long. *)
Definition envLocal : Env string :=
  {| now := 2 * Hour;
     os_Stat := λ _, Some 10;
     getBlobFromRemote := λ _, (None, 200);
     findNode := λ _, None;
     findAllNodes := Some ["n1"; "n2"];
     gcPolls := 0;
     ViewCustom := λ _ _ _, None;
     deleteBlob := λ _ _, None;
     IsDead := λ _, false;
     acquireBlob := λ _ _ _, None |}.

(** A ranking that proposes the nodes in list order, and a lookup by
    name. *)
Definition rankInOrder (nl : list string) (_ : string) (_ : list string)
    : list string := nl.
Definition lookupByName (_ : list string) (n : string) : string := n.

Definition fiveOwners : list (string * string) :=
  [("a", "t"); ("b", "t"); ("c", "t"); ("d", "t"); ("e", "t")].
Definition fiveNodes : list string := ["a"; "b"; "c"; "d"; "e"].

(** Two callers and the records they write when [A] commits first. *)
Definition affA : Affirmation :=
  {| aff_node := "A"; aff_length := 10; aff_force := false; aff_now := 1 |}.
Definition affB : Affirmation :=
  {| aff_node := "B"; aff_length := 10; aff_force := false; aff_now := 2 |}.
Definition recordA : BlobOwnership :=
  {| OID := "h"; Length := 10; Nodes := Some {[ "A" := 1 ]}; Type_ := "blob" |}.
Definition recordAB : BlobOwnership :=
  {| OID := "h"; Length := 10; Nodes := Some (<[ "B" := 2 ]> {[ "A" := 1 ]});
     Type_ := "blob" |}.

Definition threeAffirmations : list Affirmation :=
  [ {| aff_node := "A"; aff_length := 10; aff_force := false; aff_now := 1 |};
    {| aff_node := "B"; aff_length := 10; aff_force := true; aff_now := 2 |};
    {| aff_node := "C"; aff_length := 12; aff_force := false; aff_now := 3 |} ].

Definition threeAffirmationsSwapped : list Affirmation :=
  [ {| aff_node := "B"; aff_length := 10; aff_force := true; aff_now := 2 |};
    {| aff_node := "A"; aff_length := 10; aff_force := false; aff_now := 1 |};
    {| aff_node := "C"; aff_length := 12; aff_force := false; aff_now := 3 |} ].

(** The buckets of a blob that [B] alone owns, and that [A] and [B]
    own. *)
Definition bucketOfB : Store := bucketOf (ownedBy (Some {[ "B" := 0 ]})).
Definition bucketOfAB : Store :=
  bucketOf (ownedBy (Some {[ "A" := 0; "B" := 0 ]})).

(** A bucket whose record of ["h"] is not the encoding of a record. *)
Definition bucketCorrupt : Store := {[ "/h" := [x00] ]}.

(** An environment in which every node fails to delete and is dead. *)
Definition envDead : Env string :=
  {| now := 2 * Hour;
     os_Stat := λ _, None;
     getBlobFromRemote := λ _, (None, 200);
     findNode := λ _, None;
     findAllNodes := Some fiveNodes;
     gcPolls := 0;
     ViewCustom := λ _ _ _, None;
     deleteBlob := λ _ _, Some ErrStore;
     IsDead := λ _, true;
     acquireBlob := λ _ _ _, None |}.

(** A view with one row: the blob ["h"] with its five owners. *)
Definition viewOfFive (_ _ : string) (_ : ViewParams)
    : option (list (string * list (string * string))) :=
  Some [("/h", fiveOwners)].

(** * Properties *)

Lemma pos_of_bytes_of_pos p : pos_of_bytes (bytes_of_pos p) = Some p.
Proof. induction p as [p IH|p IH|]; simpl; by rewrite ?IH. Qed.

Lemma ref_codec_laws : CodecLaws ref_Unmarshal ref_Encode.
Proof.
  split; [done|]. intros b. unfold ref_Unmarshal, ref_Encode.
  rewrite pos_of_bytes_of_pos. simpl. apply decode_encode.
Qed.

(** ** Keys *)

Lemma string_length_app (s1 s2 : string) :
  String.length (s1 +:+ s2) = (String.length s1 + String.length s2)%nat.
Proof. induction s1 as [|c s1 IH]; simpl; [done | by rewrite IH]. Qed.

Lemma counter_key_ne (k : string) : k +:+ "/r" ≠ k.
Proof.
  intros H. apply (f_equal String.length) in H.
  rewrite string_length_app in H. simpl in H. lia.
Qed.

Lemma string_app_inj_r (s1 s2 t : string) :
  s1 +:+ t = s2 +:+ t → s1 = s2.
Proof.
  revert s2. induction s1 as [|c1 s1 IH]; intros [|c2 s2] H; simpl in *.
  - done.
  - apply (f_equal String.length) in H.
    rewrite ?string_length_app in H. simpl in H.
    rewrite ?string_length_app in H. lia.
  - apply (f_equal String.length) in H.
    rewrite ?string_length_app in H. simpl in H.
    rewrite ?string_length_app in H. lia.
  - injection H as -> H. f_equal. by apply IH.
Qed.

(** The counter of node [sid] lives at a key different from the record
    and from the counter of blob [h], unless the ids collide. *)
Lemma node_counter_key_ne_record (sid h : string) :
  h ≠ sid +:+ "/r" → ("/" +:+ sid) +:+ "/r" ≠ "/" +:+ h.
Proof. intros Hne H. simpl in H. injection H as H. by apply Hne. Qed.

Lemma node_counter_key_ne_counter (sid h : string) :
  h ≠ sid → ("/" +:+ sid) +:+ "/r" ≠ ("/" +:+ h) +:+ "/r".
Proof.
  intros Hne H. apply string_app_inj_r in H. simpl in H.
  injection H as H. by apply Hne.
Qed.

(** ** Go maps *)

Lemma gomap_len_delete {T} (m : gomap T) (k : string) :
  gomap_len m - 1 ≤ gomap_len (gomap_delete m k) ≤ gomap_len m.
Proof.
  destruct m as [m|]; simpl; [|lia].
  rewrite map_size_delete. destruct (m !! k); simpl; lia.
Qed.

Lemma gomap_get_delete {T} (m : gomap T) (k : string) :
  gomap_get (gomap_delete m k) k = None.
Proof. destruct m as [m|]; simpl; [apply lookup_delete_eq|done]. Qed.

(** ** Go integers *)

Lemma int_wrap_id (z : Z) : minInt ≤ z ≤ maxInt → int_wrap z = z.
Proof.
  unfold minInt, maxInt, int_wrap. intros Hz.
  rewrite Z.mod_small by lia. lia.
Qed.

(** ** Time *)

Lemma time_Since_lt_Hour (now t : Time) :
  (time_Since now t <? Hour) = (now - t <? Hour).
Proof.
  unfold time_Since, time_Sub, minDuration, maxDuration, Hour.
  repeat case_match; lia.
Qed.

(** ** Ownership manager *)

Section OwnershipProperties.

Variable json_Unmarshal : list byte → option BlobOwnership.
Variable mustEncode : BlobOwnership → list byte.

Lemma body_of_Some (st : Store) k inb :
  st !! k = Some inb → body_of st k = inb.
Proof. unfold body_of. by intros ->. Qed.

Lemma body_of_None (st : Store) k : st !! k = None → body_of st k = [].
Proof. unfold body_of. by intros ->. Qed.

Lemma length_eqb_0 (inb : list byte) :
  inb ≠ [] → (length inb =? 0)%nat = false.
Proof. by destruct inb. Qed.

Lemma encode_nonempty b :
  CodecLaws json_Unmarshal mustEncode → mustEncode b ≠ [].
Proof.
  intros [He Hr] Hb. specialize (Hr b). rewrite Hb in Hr. congruence.
Qed.

(** *** removeOwner *)

(** What [removeBlobOwnershipRecord] does to the bucket on an existing,
    decodable record, in full. *)
Lemma removeBlobOwnershipRecord_spec g h node (st : Store) inb b :
  st !! ("/" +:+ h) = Some inb →
  inb ≠ [] →
  json_Unmarshal inb = Some b →
  let k := "/" +:+ h in
  let b' := with_Nodes b (gomap_delete (Nodes b) node) in
  let n := gomap_len (Nodes b') in
  removeBlobOwnershipRecord json_Unmarshal mustEncode g h node st =
    Ret (if n =? 0
         then if bool_decide (node = serverId g)
              then delete (k +:+ "/r") (delete k st)
              else delete (k +:+ "/r") (<[k := mustEncode b']> st)
         else <[k := mustEncode b']> st,
         n).
Proof.
  intros Hk Hne Hdec k b' n.
  unfold removeBlobOwnershipRecord, mc_CAS, removeBlobOwnershipRecord_cas.
  rewrite (body_of_Some _ _ _ Hk), (length_eqb_0 _ Hne), Hdec.
  fold k b' n. unfold couchbase_Delete.
  destruct (n =? 0) eqn:Hn; simpl.
  - destruct (bool_decide (node = serverId g)); simpl; by rewrite Hn.
  - by rewrite Hn.
Qed.

(** C1. On an existing, decodable record, [removeOwner(oid, node)]
    deletes [node] from the owner map; the record is deleted from the
    bucket exactly when no owner is left and [node] is the local node;
    in every other case the updated record is written back, also when
    its owner map is empty, so that a removal by another node that
    empties the map leaves a record with zero owners. *)
Theorem removeOwner_deletes_iff_local_and_empty
    g h node (st : Store) inb b :
  st !! ("/" +:+ h) = Some inb →
  inb ≠ [] →
  json_Unmarshal inb = Some b →
  let k := "/" +:+ h in
  let b' := with_Nodes b (gomap_delete (Nodes b) node) in
  let n := gomap_len (Nodes b') in
  gomap_get (Nodes b') node = None ∧
  ∃ st',
    removeBlobOwnershipRecord json_Unmarshal mustEncode g h node st
      = Ret (st', n) ∧
    (n = 0 ∧ node = serverId g → st' !! k = None) ∧
    (¬ (n = 0 ∧ node = serverId g) → st' !! k = Some (mustEncode b')) ∧
    (n = 0 → node ≠ serverId g →
       st' !! k = Some (mustEncode b') ∧ gomap_keys (Nodes b') = ∅).
Proof.
  intros Hk Hne Hdec k b' n. split.
  { apply gomap_get_delete. }
  eexists. split.
  { apply (removeBlobOwnershipRecord_spec g h node st inb b); done. }
  fold k b' n.
  assert (Hkr : k +:+ "/r" ≠ k) by apply counter_key_ne.
  assert (Hempty : n = 0 → gomap_keys (Nodes b') = ∅).
  { subst n. destruct (Nodes b') as [m|]; simpl; [|done].
    intros Hsz. apply dom_empty_iff_L, map_size_empty_iff. lia. }
  split; [|split].
  - intros [-> ->]. simpl. rewrite bool_decide_eq_true_2 by done.
    rewrite lookup_delete_ne by done. apply lookup_delete_eq.
  - intros Hnot. destruct (n =? 0) eqn:Hn.
    + apply Z.eqb_eq in Hn.
      rewrite bool_decide_eq_false_2 by (intros ->; by apply Hnot).
      rewrite lookup_delete_ne by done. apply lookup_insert_eq.
    + apply lookup_insert_eq.
  - intros Hn Hnode. rewrite Hn. simpl.
    rewrite bool_decide_eq_false_2 by done.
    rewrite lookup_delete_ne by done. rewrite lookup_insert_eq.
    split; [done|]. by apply Hempty.
Qed.

(** *** removeSelfSafely *)

(** What [maybeRemoveBlobOwnership] returns on an existing, decodable
    record, in full. *)
Lemma maybeRemoveBlobOwnership_spec g h now (st : Store) inb b :
  st !! ("/" +:+ h) = Some inb →
  inb ≠ [] →
  json_Unmarshal inb = Some b →
  let k := "/" +:+ h in
  let ts := default zeroTime (gomap_get (Nodes b) (serverId g)) in
  let b' := with_Nodes b (gomap_delete (Nodes b) (serverId g)) in
  maybeRemoveBlobOwnership json_Unmarshal mustEncode g h now st =
    Ret (if now - ts <? Hour then (st, Some (ErrNew "too soon"))
         else if gomap_len (Nodes b) - 1 <? MinReplicas (globalConfig g)
         then (st, Some (ErrNew "Insufficient replicas"))
         else if gomap_len (Nodes b') =? 0
         then (delete (k +:+ "/r") (delete k st), None)
         else (<[k := mustEncode b']> st, None)).
Proof.
  intros Hk Hne Hdec k ts b'.
  unfold maybeRemoveBlobOwnership, mc_CAS, maybeRemoveBlobOwnership_cas.
  rewrite (body_of_Some _ _ _ Hk), (length_eqb_0 _ Hne), Hdec.
  rewrite time_Since_lt_Hour. fold k ts b'. unfold couchbase_Delete.
  destruct (now - ts <? Hour); [done|].
  destruct (gomap_len (Nodes b) - 1 <? MinReplicas (globalConfig g));
    [done|].
  by destruct (gomap_len (Nodes b') =? 0).
Qed.

(** C3 (amended). On an existing, decodable record,
    [removeSelfSafely(oid)] fails with "too soon" when the local node's
    timestamp is younger than one hour; past that guard it fails with
    "Insufficient replicas" when removing the local node would leave
    fewer owners than the configured minimum (the code tests the owner
    count minus one); a failed call leaves the bucket as it was.  Only
    when both guards pass is the local node removed: an emptied map
    deletes the record and the access counter keyed by the blob id, and
    no other key, so the counter keyed by the node id stays (blob id and
    node id being different); a map that is not emptied is written
    back. *)
Theorem removeSelfSafely_guards_then_removes
    g h now (st : Store) inb b :
  st !! ("/" +:+ h) = Some inb →
  inb ≠ [] →
  json_Unmarshal inb = Some b →
  let k := "/" +:+ h in
  let run := maybeRemoveBlobOwnership json_Unmarshal mustEncode g h now st in
  let ts := default zeroTime (gomap_get (Nodes b) (serverId g)) in
  let b' := with_Nodes b (gomap_delete (Nodes b) (serverId g)) in
  (now - ts < Hour → run = Ret (st, Some (ErrNew "too soon"))) ∧
  (Hour ≤ now - ts →
   gomap_len (Nodes b) - 1 < MinReplicas (globalConfig g) ∨
   gomap_len (Nodes b') < MinReplicas (globalConfig g) →
   run = Ret (st, Some (ErrNew "Insufficient replicas"))) ∧
  (Hour ≤ now - ts →
   MinReplicas (globalConfig g) ≤ gomap_len (Nodes b) - 1 →
   gomap_get (Nodes b') (serverId g) = None ∧
   ∃ st', run = Ret (st', None) ∧
     (gomap_len (Nodes b') = 0 →
        st' !! k = None ∧ st' !! (k +:+ "/r") = None ∧
        (∀ key, key ≠ k → key ≠ k +:+ "/r" → st' !! key = st !! key) ∧
        (h ≠ serverId g → h ≠ serverId g +:+ "/r" →
           st' !! (("/" +:+ serverId g) +:+ "/r")
             = st !! (("/" +:+ serverId g) +:+ "/r"))) ∧
     (gomap_len (Nodes b') ≠ 0 →
        st' !! k = Some (mustEncode b') ∧
        (∀ key, key ≠ k → st' !! key = st !! key))).
Proof.
  intros Hk Hne Hdec k run ts b'.
  assert (Hrun := maybeRemoveBlobOwnership_spec g h now st inb b Hk Hne Hdec).
  simpl in Hrun. fold k run ts b' in Hrun.
  assert (Hkr : k +:+ "/r" ≠ k) by apply counter_key_ne.
  split; [|split].
  - intros Hts. rewrite Hrun.
    by rewrite (proj2 (Z.ltb_lt _ _) Hts).
  - intros Hts Hmin. rewrite Hrun.
    rewrite (proj2 (Z.ltb_ge _ _) Hts).
    assert (Hguard : gomap_len (Nodes b) - 1 < MinReplicas (globalConfig g)).
    { destruct Hmin as [Hmin|Hmin]; [done|].
      pose proof (gomap_len_delete (Nodes b) (serverId g)).
      subst b'. simpl in Hmin. lia. }
    by rewrite (proj2 (Z.ltb_lt _ _) Hguard).
  - intros Hts Hmin. split.
    { subst b'. simpl. destruct (Nodes b); simpl; [|done].
      apply lookup_delete_eq. }
    rewrite Hrun.
    rewrite (proj2 (Z.ltb_ge _ _) Hts), (proj2 (Z.ltb_ge _ _) Hmin).
    change (gomap_delete (Nodes b) (serverId g)) with (Nodes b').
    destruct (gomap_len (Nodes b') =? 0) eqn:Hlen.
    + apply Z.eqb_eq in Hlen. eexists. split; [done|].
      split; [|intros ?; lia]. intros _.
      assert (Hother : ∀ key, key ≠ k → key ≠ k +:+ "/r" →
                delete (k +:+ "/r") (delete k st) !! key = st !! key).
      { intros key H1 H2. by rewrite !lookup_delete_ne. }
      split; [|split; [|split]].
      * rewrite lookup_delete_ne by done. apply lookup_delete_eq.
      * apply lookup_delete_eq.
      * done.
      * intros H1 H2. apply Hother.
        -- by apply node_counter_key_ne_record.
        -- apply node_counter_key_ne_counter. congruence.
    + apply Z.eqb_neq in Hlen. eexists. split; [done|].
      split; [intros ?; lia|]. intros _. split; [apply lookup_insert_eq|].
      intros key H1. by rewrite lookup_insert_ne.
Qed.

(** *** Access counters *)

(** C2 (amended). Whenever a removal path observes a post-removal owner
    count of zero, the access counter keyed by the blob id is deleted;
    apart from the record itself no other key of the bucket changes, so
    the counter keyed by the node id is not deleted (blob id and node id
    being different).  For [removeOwner] the observed count is the one it
    returns; for [removeSelfSafely] it is the count after both guards
    have passed. *)
Theorem zero_owners_deletes_blob_counter g h node now (st : Store) :
  let k := "/" +:+ h in
  let kept (st' : Store) :=
    (∀ key, key ≠ k → key ≠ k +:+ "/r" → st' !! key = st !! key) ∧
    (h ≠ serverId g → h ≠ serverId g +:+ "/r" →
       st' !! (("/" +:+ serverId g) +:+ "/r")
         = st !! (("/" +:+ serverId g) +:+ "/r")) in
  (∀ st',
     removeBlobOwnershipRecord json_Unmarshal mustEncode g h node st
       = Ret (st', 0) →
     st' !! (k +:+ "/r") = None ∧ kept st') ∧
  (∀ inb b,
     st !! k = Some inb → inb ≠ [] → json_Unmarshal inb = Some b →
     Hour ≤ now - default zeroTime (gomap_get (Nodes b) (serverId g)) →
     MinReplicas (globalConfig g) ≤ gomap_len (Nodes b) - 1 →
     gomap_len (gomap_delete (Nodes b) (serverId g)) = 0 →
     ∃ st',
       maybeRemoveBlobOwnership json_Unmarshal mustEncode g h now st
         = Ret (st', None) ∧
       st' !! (k +:+ "/r") = None ∧ kept st').
Proof.
  intros k kept.
  assert (Hkept : ∀ st' : Store,
            (∀ key, key ≠ k → key ≠ k +:+ "/r" → st' !! key = st !! key) →
            kept st').
  { intros st' Hother. split; [done|]. intros H1 H2. apply Hother.
    - by apply node_counter_key_ne_record.
    - apply node_counter_key_ne_counter. congruence. }
  split.
  - intros st'.
    unfold removeBlobOwnershipRecord, mc_CAS, removeBlobOwnershipRecord_cas.
    fold k. unfold couchbase_Delete.
    destruct (length (body_of st k) =? 0)%nat; simpl; [done|].
    destruct (json_Unmarshal (body_of st k)) as [b|]; simpl; [|done].
    set (n := gomap_len (gomap_delete (Nodes b) node)).
    destruct ((n =? 0) && bool_decide (node = serverId g)); simpl.
    + destruct (n =? 0) eqn:Hn; intros [= <- Hn']; [|lia].
      split; [apply lookup_delete_eq|]. apply Hkept.
      intros key H1 H2. by rewrite !lookup_delete_ne.
    + destruct (n =? 0) eqn:Hn; intros [= <- Hn']; [|lia].
      split; [apply lookup_delete_eq|]. apply Hkept.
      intros key H1 H2. rewrite lookup_delete_ne by done.
      by rewrite lookup_insert_ne.
  - intros inb b Hk Hne Hdec Hts Hmin Hlen.
    rewrite (maybeRemoveBlobOwnership_spec g h now st inb b Hk Hne Hdec).
    simpl. fold k.
    rewrite (proj2 (Z.ltb_ge _ _) Hts), (proj2 (Z.ltb_ge _ _) Hmin).
    rewrite Hlen. simpl. eexists. split; [done|].
    split; [apply lookup_delete_eq|]. apply Hkept.
    intros key H1 H2. by rewrite !lookup_delete_ne.
Qed.

(** *** recordAffirmation *)

Lemma recordBlobOwnership_cas_nil g h l force now inb b :
  json_Unmarshal inb = Some b →
  Nodes b = None →
  recordBlobOwnership_cas json_Unmarshal mustEncode g h l force now inb ()
    = Panic "assignment to entry in nil map".
Proof.
  intros Hdec Hnil. unfold recordBlobOwnership_cas. by rewrite Hdec, Hnil.
Qed.

(** The local node is present and the call is not forced: nothing is
    written and no error is reported. *)
Lemma recordBlobOwnership_noop g h l now (st : Store) b t :
  json_Unmarshal (body_of st ("/" +:+ h)) = Some b →
  gomap_get (Nodes b) (serverId g) = Some t →
  recordBlobOwnership json_Unmarshal mustEncode g h l false now st
    = Ret (st, None).
Proof.
  intros Hdec Hin.
  unfold recordBlobOwnership, mc_CAS, recordBlobOwnership_cas.
  rewrite Hdec, Hin. by rewrite bool_decide_eq_true_2.
Qed.

(** No record, or one that does not decode: a fresh record with the
    local node as only owner is written. *)
Lemma recordBlobOwnership_fresh g h l force now (st : Store) :
  json_Unmarshal (body_of st ("/" +:+ h)) = None →
  recordBlobOwnership json_Unmarshal mustEncode g h l force now st
    = Ret (<["/" +:+ h :=
              mustEncode {| OID := h; Length := l;
                            Nodes := Some {[ serverId g := now ]};
                            Type_ := "blob" |}]> st, None).
Proof.
  intros Hdec.
  unfold recordBlobOwnership, mc_CAS, recordBlobOwnership_cas.
  by rewrite Hdec.
Qed.

(** A decoded record with an allocated owner map, and the local node
    absent or the call forced: the timestamp of the local node is set
    and the other three fields are overwritten. *)
Lemma recordBlobOwnership_update g h l force now (st : Store) b m :
  json_Unmarshal (body_of st ("/" +:+ h)) = Some b →
  Nodes b = Some m →
  m !! serverId g = None ∨ force = true →
  recordBlobOwnership json_Unmarshal mustEncode g h l force now st
    = Ret (<["/" +:+ h :=
              mustEncode {| OID := h; Length := l;
                            Nodes := Some (<[serverId g := now]> m);
                            Type_ := "blob" |}]> st, None).
Proof.
  intros Hdec Hm Hcase.
  unfold recordBlobOwnership, mc_CAS, recordBlobOwnership_cas.
  rewrite Hdec, Hm. simpl.
  destruct Hcase as [Hnone| ->].
  - rewrite Hnone. rewrite bool_decide_eq_false_2; [done|]. by intros [? ?].
  - by rewrite andb_false_r.
Qed.

(** Two consecutive calls that are not forced: the second one leaves
    the bucket as the first one left it. *)
Lemma recordBlobOwnership_twice g h l1 l2 now1 now2 (st st1 : Store) :
  CodecLaws json_Unmarshal mustEncode →
  recordBlobOwnership json_Unmarshal mustEncode g h l1 false now1 st
    = Ret (st1, None) →
  recordBlobOwnership json_Unmarshal mustEncode g h l2 false now2 st1
    = Ret (st1, None).
Proof.
  intros [He Hr].
  unfold recordBlobOwnership at 1. unfold mc_CAS, recordBlobOwnership_cas.
  destruct (json_Unmarshal (body_of st ("/" +:+ h))) as [b|] eqn:Hdec.
  - destruct (bool_decide (is_Some (gomap_get (Nodes b) (serverId g))))
      eqn:Hin; simpl.
    + intros [= <-]. apply bool_decide_eq_true_1 in Hin as [t Ht].
      by apply (recordBlobOwnership_noop g h l2 now2 st b t).
    + destruct (Nodes b) as [m|]; simpl; [|done]. intros [= <-].
      eapply recordBlobOwnership_noop.
      * unfold body_of. rewrite lookup_insert_eq. simpl. apply Hr.
      * simpl. apply lookup_insert_eq.
  - simpl. intros [= <-]. eapply recordBlobOwnership_noop.
    + unfold body_of. rewrite lookup_insert_eq. simpl. apply Hr.
    + simpl. apply lookup_singleton_eq.
Qed.

(** Apart from a stored record without a [nodes] map, the call returns,
    and without an error. *)
Lemma recordBlobOwnership_returns g h l force now (st : Store) :
  ¬ (∃ b, json_Unmarshal (body_of st ("/" +:+ h)) = Some b ∧
          Nodes b = None) →
  ∃ st' : Store,
    recordBlobOwnership json_Unmarshal mustEncode g h l force now st
      = Ret (st', None).
Proof.
  intros Hnot.
  unfold recordBlobOwnership, mc_CAS, recordBlobOwnership_cas.
  destruct (json_Unmarshal (body_of st ("/" +:+ h))) as [b|] eqn:Hdec;
    [|by eexists].
  destruct (bool_decide _ && negb force); [by eexists|].
  destruct (Nodes b) as [m|] eqn:Hm; [by eexists|].
  exfalso. apply Hnot. by exists b.
Qed.

(** C4 (failing input). A stored record that decodes without a [nodes]
    map is one of the cases in which the timestamp of the local node
    should be set and the other fields overwritten; on it
    [recordAffirmation] panics, forced or not, and writes nothing. *)
Theorem recordAffirmation_panics_without_nodes_map
    g h l force now (st : Store) inb b :
  st !! ("/" +:+ h) = Some inb →
  json_Unmarshal inb = Some b →
  Nodes b = None →
  recordBlobOwnership json_Unmarshal mustEncode g h l force now st
    = Panic "assignment to entry in nil map".
Proof.
  intros Hk Hdec Hnil. unfold recordBlobOwnership, mc_CAS.
  rewrite (body_of_Some _ _ _ Hk).
  by rewrite (recordBlobOwnership_cas_nil g h l force now inb b).
Qed.

(** C10 (failing input). The closure of [recordAffirmation] is not
    total: on a body that decodes to a record without a [nodes] map it
    panics; on every other body it returns, with either a quit decision
    or the encoding of a record of this blob that has the local node
    among its owners with timestamp now. *)
Theorem affirmation_closure_total_except_nil_map g h l force now inb :
  let run :=
    recordBlobOwnership_cas json_Unmarshal mustEncode g h l force now
      inb () in
  ((∃ b, json_Unmarshal inb = Some b ∧ Nodes b = None) →
     run = Panic "assignment to entry in nil map" ∧ ¬ returns run) ∧
  (¬ (∃ b, json_Unmarshal inb = Some b ∧ Nodes b = None) →
     run = Ret ((), ([], CASQuit)) ∨
     ∃ r, run = Ret ((), (mustEncode r, CASStore)) ∧
          OID r = h ∧ Length r = l ∧ Type_ r = "blob" ∧
          gomap_get (Nodes r) (serverId g) = Some now).
Proof.
  intros run. split.
  - intros (b & Hdec & Hnil). subst run.
    rewrite (recordBlobOwnership_cas_nil g h l force now inb b) by done.
    split; [done|]. by intros [? ?].
  - intros Hnot. subst run. unfold recordBlobOwnership_cas.
    destruct (json_Unmarshal inb) as [b|] eqn:Hdec.
    + destruct (bool_decide _ && negb force); [by left|].
      destruct (Nodes b) as [m|] eqn:Hm.
      * right. eexists. simpl. split; [done|]. simpl.
        repeat split. apply lookup_insert_eq.
      * exfalso. apply Hnot. by exists b.
    + right. eexists. split; [done|]. simpl.
      repeat split. apply lookup_singleton_eq.
Qed.

(** *** Convergence of affirmations *)

(** Once the record exists with an allocated owner map, every further
    affirmation returns and adds its node to the owners. *)
Lemma affirmAll_grows cfg h calls :
  CodecLaws json_Unmarshal mustEncode →
  ∀ (st : Store) b m,
    st !! ("/" +:+ h) = Some (mustEncode b) →
    Nodes b = Some m →
    ∃ (st' : Store) b' m',
      affirmAll json_Unmarshal mustEncode cfg h calls st = Ret st' ∧
      st' !! ("/" +:+ h) = Some (mustEncode b') ∧
      Nodes b' = Some m' ∧
      dom m' = dom m ∪ list_to_set (aff_node <$> calls).
Proof.
  intros Hlaws. pose proof Hlaws as [He Hr].
  induction calls as [|c calls IH]; intros st b m Hk Hm.
  - exists st, b, m. simpl. repeat split; try done. set_solver.
  - simpl.
    set (g := {| serverId := aff_node c; globalConfig := cfg |}).
    set (r := {| OID := h; Length := aff_length c;
                 Nodes := Some (<[aff_node c := aff_now c]> m);
                 Type_ := "blob" |}).
    assert (Hdec : json_Unmarshal (body_of st ("/" +:+ h)) = Some b).
    { rewrite (body_of_Some _ _ _ Hk). apply Hr. }
    destruct (m !! aff_node c) as [t|] eqn:Hin;
      [destruct (aff_force c) eqn:Hforce|].
    + rewrite (recordBlobOwnership_update g h _ true _ st b m);
        [|done|done|by right].
      simpl.
      destruct (IH (<["/" +:+ h := mustEncode r]> st) r
                  (<[aff_node c := aff_now c]> m))
        as (st' & b' & m' & H1 & H2 & H3 & H4);
        [apply lookup_insert_eq|done|].
      exists st', b', m'. repeat split; try done.
      rewrite H4, dom_insert_L. set_solver.
    + rewrite (recordBlobOwnership_noop g h _ _ st b t);
        [|done|by rewrite Hm].
      simpl.
      destruct (IH st b m Hk Hm) as (st' & b' & m' & H1 & H2 & H3 & H4).
      exists st', b', m'. repeat split; try done.
      rewrite H4. apply elem_of_dom_2 in Hin. set_solver.
    + rewrite (recordBlobOwnership_update g h _ _ _ st b m);
        [|done|done|by left].
      simpl.
      destruct (IH (<["/" +:+ h := mustEncode r]> st) r
                  (<[aff_node c := aff_now c]> m))
        as (st' & b' & m' & H1 & H2 & H3 & H4);
        [apply lookup_insert_eq|done|].
      exists st', b', m'. repeat split; try done.
      rewrite H4, dom_insert_L. set_solver.
Qed.

(** C6. Affirmations of one blob by a collection of nodes, starting
    from an absent record and committing in any order: every call
    returns, and the owner set of the final record is the set of the
    participating node ids. *)
Theorem affirmations_converge_to_union
    cfg h (calls sched : list Affirmation) (st : Store) :
  CodecLaws json_Unmarshal mustEncode →
  st !! ("/" +:+ h) = None →
  calls ≠ [] →
  sched ≡ₚ calls →
  ∃ (st' : Store) b,
    affirmAll json_Unmarshal mustEncode cfg h sched st = Ret st' ∧
    getBlobOwnership json_Unmarshal h st' = (b, None) ∧
    gomap_keys (Nodes b) = list_to_set (aff_node <$> calls).
Proof.
  intros Hlaws Hk Hne Hperm. pose proof Hlaws as [He Hr].
  assert (Hset : list_to_set (C := gset string) (aff_node <$> calls)
                 = list_to_set (aff_node <$> sched)).
  { apply list_to_set_perm_L. by rewrite Hperm. }
  destruct sched as [|c sched].
  { apply Permutation_nil_l in Hperm. congruence. }
  simpl.
  set (g := {| serverId := aff_node c; globalConfig := cfg |}).
  rewrite (recordBlobOwnership_fresh g h _ _ _ st);
    [|by rewrite (body_of_None _ _ Hk)].
  simpl.
  set (r := {| OID := h; Length := aff_length c;
               Nodes := Some {[ aff_node c := aff_now c ]};
               Type_ := "blob" |}).
  destruct (affirmAll_grows cfg h sched Hlaws
              (<["/" +:+ h := mustEncode r]> st) r
              {[ aff_node c := aff_now c ]})
    as (st' & b' & m' & H1 & H2 & H3 & H4);
    [apply lookup_insert_eq|done|].
  exists st', b'. split; [done|]. split.
  - unfold getBlobOwnership. by rewrite H2, Hr.
  - rewrite H3. simpl. rewrite H4, Hset. simpl.
    rewrite dom_singleton_L. done.
Qed.

End OwnershipProperties.

(** ** Affirmations that race

    Convergence of affirmations is stated above for the order in which
    the calls commit.  This section justifies that reading on the
    compare-and-swap loop itself: callers read, run the closure and try
    to store in any interleaving, and a store that lost the race is
    retried. *)

Section RaceProperties.

Variable json_Unmarshal : list byte → option BlobOwnership.
Variable mustEncode : BlobOwnership → list byte.
Variable cfg : Config.
Variable h : string.
Hypothesis laws : CodecLaws json_Unmarshal mustEncode.

Local Abbreviation closureOf := (closureOf json_Unmarshal mustEncode cfg h).
Local Abbreviation owners_of := (owners_of json_Unmarshal).
Local Abbreviation body_ok := (body_ok json_Unmarshal mustEncode).
Local Abbreviation phase_ok := (phase_ok json_Unmarshal mustEncode).
Local Abbreviation race_inv := (race_inv json_Unmarshal mustEncode).
Local Abbreviation race_step := (race_step json_Unmarshal mustEncode cfg h).
Local Abbreviation caller_step := (caller_step json_Unmarshal mustEncode cfg h).

Lemma owners_of_empty : owners_of [] = ∅.
Proof. unfold owners_of. by rewrite (unmarshal_empty _ _ laws). Qed.

Lemma owners_of_encode b : owners_of (mustEncode b) = gomap_keys (Nodes b).
Proof. unfold owners_of. by rewrite (unmarshal_encode _ _ laws). Qed.

(** What the closure returns on a body that has been in the cell. *)
Lemma closureOf_on_ok c cl body :
  body_ok cl body →
  (closureOf c body = Ret ((), ([], CASQuit)) ∧
   aff_node c ∈ owners_of (cell_body cl)) ∨
  ∃ r m, closureOf c body = Ret ((), (mustEncode r, CASStore)) ∧
         Nodes r = Some m ∧
         dom m = {[ aff_node c ]} ∪ owners_of body.
Proof.
  intros [->|(b & m & -> & Hm & Hsub)]; unfold closureOf,
    recordBlobOwnership_cas.
  - rewrite (unmarshal_empty _ _ laws). right. eexists _, _.
    split; [done|]. split; [done|].
    rewrite owners_of_empty, dom_singleton_L. simpl. set_solver.
  - rewrite (unmarshal_encode _ _ laws), Hm. simpl.
    destruct (bool_decide (is_Some (m !! aff_node c))) eqn:Hin; simpl.
    + destruct (aff_force c); simpl.
      * right. eexists _, _. split; [done|]. split; [done|].
        rewrite owners_of_encode, Hm, dom_insert_L. done.
      * left. split; [done|]. apply bool_decide_eq_true_1 in Hin.
        apply Hsub. by apply elem_of_dom.
    + right. eexists _, _. split; [done|]. split; [done|].
      rewrite owners_of_encode, Hm, dom_insert_L. done.
Qed.

Lemma body_ok_mono cl cl' body :
  owners_of (cell_body cl) ⊆ owners_of (cell_body cl') →
  body_ok cl body → body_ok cl' body.
Proof.
  intros Hsub [->|(b & m & -> & Hm & Hdom)]; [by left|].
  right. exists b, m. split; [done|]. split; [done|]. set_solver.
Qed.

Lemma phase_ok_mono cl cl' cp :
  owners_of (cell_body cl) ⊆ owners_of (cell_body cl') →
  (cell_version cl < cell_version cl')%nat →
  phase_ok cl cp → phase_ok cl' cp.
Proof.
  intros Hsub Hver. unfold phase_ok.
  destruct cp as [c [|body ver|]]; simpl; [done| |set_solver].
  intros (Hle & _ & Hbody). split; [lia|]. split; [lia|].
  by apply (body_ok_mono cl).
Qed.

Lemma race_inv_start calls : race_inv (race_start calls).
Proof.
  unfold race_inv, race_start. simpl. split; [by left|]. split.
  - apply Forall_fmap, Forall_forall. by intros c _.
  - rewrite owners_of_empty. set_solver.
Qed.

Lemma race_step_callers s s' : race_step s s' → s'.2.*1 = s.2.*1.
Proof.
  intros Hstep. destruct Hstep. simpl.
  by rewrite !fmap_app, !fmap_cons.
Qed.

Lemma race_inv_step s s' : race_inv s → race_step s s' → race_inv s'.
Proof.
  intros (Hcell & Hall & Hsub) Hstep.
  pose proof (race_step_callers _ _ Hstep) as Hcallers.
  destruct Hstep as [cl cl' pre c ph ph' post Hstep]. simpl in *.
  apply Forall_app in Hall as [Hpre Hrest].
  apply Forall_cons in Hrest as [Hc Hpost].
  assert (Hin : aff_node c ∈
            list_to_set (C := gset string)
              (aff_node <$> (pre ++ (c, ph') :: post).*1)).
  { rewrite fmap_app, fmap_cons, fmap_app, fmap_cons. simpl.
    rewrite list_to_set_app_L, list_to_set_cons. set_solver. }
  unfold race_inv. simpl. rewrite Hcallers in Hin |- *.
  destruct Hstep as [cl|cl body ver v Hquit|cl body ver v Hstore Hver
                    |cl body ver v Hstore Hver].
  - (* read *)
    split; [done|]. split; [|done].
    apply Forall_app. split; [done|]. apply Forall_cons. split; [|done].
    unfold phase_ok. simpl. done.
  - (* quit *)
    split; [done|]. split; [|done].
    apply Forall_app. split; [done|]. apply Forall_cons. split; [|done].
    unfold phase_ok in Hc |- *. simpl in *.
    destruct Hc as (_ & _ & Hbody).
    destruct (closureOf_on_ok c cl body Hbody)
      as [[_ Hown]|(r & m & Hret & _)]; [done|].
    rewrite Hquit in Hret. congruence.
  - (* store *)
    unfold phase_ok in Hc. simpl in Hc.
    destruct Hc as (_ & Hcur & Hbody). specialize (Hcur Hver). subst body.
    destruct (closureOf_on_ok c cl (cell_body cl) Hbody)
      as [[Hret _]|(r & m & Hret & Hm & Hdom)];
      [rewrite Hstore in Hret; congruence|].
    rewrite Hstore in Hret. injection Hret as ->.
    assert (Hnew : owners_of (mustEncode r)
                   = {[ aff_node c ]} ∪ owners_of (cell_body cl)).
    { by rewrite owners_of_encode, Hm. }
    simpl. split; [|split].
    + right. exists r, m. split; [done|]. split; [done|].
      simpl. rewrite Hnew, Hdom. done.
    + assert (Hmono : ∀ cp, phase_ok cl cp →
                phase_ok {| cell_body := mustEncode r;
                            cell_version := S ver |} cp).
      { intros cp. apply phase_ok_mono; simpl; [|lia].
        rewrite Hnew. set_solver. }
      apply Forall_app. split; [by eapply Forall_impl|].
      apply Forall_cons. split; [|by eapply Forall_impl].
      unfold phase_ok. simpl. rewrite Hnew. set_solver.
    + rewrite Hnew. set_solver.
  - (* conflict *)
    split; [done|]. split; [|done].
    apply Forall_app. split; [done|]. apply Forall_cons. split; [|done].
    done.
Qed.

Lemma race_inv_reachable calls s :
  rtc race_step (race_start calls) s → race_inv s ∧ s.2.*1 = calls.
Proof.
  revert s. apply rtc_ind_r.
  - split; [apply race_inv_start|].
    unfold race_start. simpl. rewrite <- list_fmap_compose.
    by rewrite list_fmap_id.
  - intros s0 s _ Hstep [Hinv Hcalls]. split.
    + by apply (race_inv_step s0).
    + by rewrite (race_step_callers _ _ Hstep).
Qed.

(** X19. In a reachable state of the race a caller that has not
    finished can take a step: no closure panics and nobody is stuck. *)
Lemma race_progress calls s :
  rtc race_step (race_start calls) s →
  ¬ race_done s →
  ∃ s', race_step s s'.
Proof.
  intros Hrtc Hnot.
  destruct (race_inv_reachable calls s Hrtc) as [(_ & Hall & _) _].
  destruct s as [cl callers]. unfold race_done in Hnot. simpl in *.
  apply not_Forall_Exists in Hnot; [|intros cp; apply _].
  apply Exists_exists in Hnot as ([c ph] & Hin & Hph). simpl in Hph.
  pose proof (proj1 (Forall_forall _ _) Hall _ Hin) as Hok.
  apply list_elem_of_split in Hin as (pre & post & ->).
  destruct ph as [|body ver|]; [| |done].
  - eexists. constructor. apply step_read.
  - unfold phase_ok in Hok. simpl in Hok.
    destruct Hok as (_ & _ & Hbody).
    destruct (closureOf_on_ok c cl body Hbody)
      as [[Hret _]|(r & m & Hret & _)].
    + eexists. constructor. by eapply step_quit.
    + destruct (decide (ver = cell_version cl)) as [Hver|Hver].
      * eexists. constructor. by eapply step_store.
      * eexists. constructor. by eapply step_conflict.
Qed.

(** X17. Affirmations by a collection of nodes that race for the
    record of one blob, starting from the absent record: whenever all
    callers have finished, the record decodes and its owner set is the
    set of the node ids of the callers. *)
Lemma race_converges calls s :
  calls ≠ [] →
  rtc race_step (race_start calls) s →
  race_done s →
  ∃ b, json_Unmarshal (cell_body s.1) = Some b ∧
       gomap_keys (Nodes b) = list_to_set (aff_node <$> calls).
Proof.
  intros Hne Hrtc Hdone.
  destruct (race_inv_reachable calls s Hrtc)
    as [(Hcell & Hall & Hsub) Hcalls].
  destruct s as [cl callers]. unfold race_done in Hdone. simpl in *.
  assert (Hsup : list_to_set (aff_node <$> calls)
                 ⊆ owners_of (cell_body cl)).
  { intros nd Hnd. apply elem_of_list_to_set, list_elem_of_fmap in Hnd
      as (c & -> & Hc).
    rewrite <- Hcalls in Hc. apply list_elem_of_fmap in Hc
      as ([c' ph] & -> & Hin). simpl.
    pose proof (proj1 (Forall_forall _ _) Hdone _ Hin) as Hph.
    pose proof (proj1 (Forall_forall _ _) Hall _ Hin) as Hok.
    simpl in Hph. subst ph. exact Hok. }
  rewrite Hcalls in Hsub.
  assert (Heq : owners_of (cell_body cl) = list_to_set (aff_node <$> calls))
    by set_solver.
  destruct Hcell as [Hempty|(b & m & Hb & Hm & _)].
  - rewrite Hempty, owners_of_empty in Heq.
    destruct calls as [|c calls]; [done|].
    rewrite fmap_cons, list_to_set_cons in Heq. set_solver.
  - exists b. rewrite Hb, (unmarshal_encode _ _ laws). split; [done|].
    rewrite <- Heq, Hb. by rewrite owners_of_encode.
Qed.

(** *** Every schedule is finite *)

Lemma weight_bump cl cl' (l : list (Affirmation * Phase)) :
  (sum_list_with (phase_weight cl') l
   ≤ sum_list_with (phase_weight cl) l + 2 * length l)%nat.
Proof.
  assert (Hpt : ∀ cp, (phase_weight cl' cp ≤ phase_weight cl cp + 2)%nat).
  { intros [c [|body ver|]]; unfold phase_weight; simpl;
      repeat case_decide; lia. }
  induction l as [|cp l IH]; simpl; [lia|].
  specialize (Hpt cp). lia.
Qed.

Lemma race_step_measure s s' :
  race_step s s' → (race_measure s' < race_measure s)%nat.
Proof.
  intros Hstep. destruct Hstep as [cl cl' pre c ph ph' post Hstep].
  unfold race_measure. simpl.
  rewrite !length_app, !sum_list_with_app. simpl.
  destruct Hstep as [cl|cl body ver v Hquit|cl body ver v Hstore Hver
                    |cl body ver v Hstore Hver];
    unfold phase_weight at 2 5, pending at 2 5; simpl.
  - rewrite decide_True by done. lia.
  - case_decide; nia.
  - rewrite decide_True by done.
    set (cl' := {| cell_body := v; cell_version := S ver |}).
    pose proof (weight_bump cl cl' pre).
    pose proof (weight_bump cl cl' post).
    nia.
  - rewrite decide_False by done. lia.
Qed.

(** X18. Racing affirmations end: a schedule of [n] steps from the
    start exists only for [n] up to [N * (2 * N + 3)], where [N] is the
    number of callers. *)
Lemma race_terminates calls n s :
  nsteps race_step n (race_start calls) s →
  (n ≤ length calls * (2 * length calls + 3))%nat.
Proof.
  intros Hn.
  assert (Hbound : (n + race_measure s ≤ race_measure (race_start calls))%nat).
  { induction Hn as [s|n s1 s2 s3 Hstep Hn IH]; [lia|].
    apply race_step_measure in Hstep. lia. }
  assert (Hstart : (race_measure (race_start calls)
                    ≤ length calls * (2 * length calls + 3))%nat).
  { unfold race_measure, race_start. simpl. rewrite length_fmap.
    assert (Hp : sum_list_with pending ((λ c, (c, Idle)) <$> calls)
                 = length calls).
    { clear. induction calls as [|c l IH]; csimpl; [done|].
      by rewrite IH. }
    assert (Hw : ∀ cl, sum_list_with (phase_weight cl)
                         ((λ c, (c, Idle)) <$> calls)
                       = (2 * length calls)%nat).
    { clear. intros cl. induction calls as [|c l IH]; csimpl; [done|].
      rewrite IH. unfold phase_weight. simpl. lia. }
    rewrite Hp, Hw. nia. }
  lia.
Qed.

End RaceProperties.

(** ** Enforcer, orchestrator and dispatcher *)

Section NodeProperties.

Variable json_Unmarshal : list byte → option BlobOwnership.
Variable mustEncode : BlobOwnership → list byte.
Context {StorageNode : Type}.
Variable name : StorageNode → string.
Variable candidatesFor :
  list StorageNode → string → list StorageNode → list StorageNode.
Variable named : list StorageNode → string → StorageNode.

Implicit Types (w : World StorageNode) (e : Env StorageNode).
Implicit Types (c : internodeTask StorageNode) (nl : list StorageNode).

Lemma set_queue_same w : set_queue w (queue w) = w.
Proof. by destruct w. Qed.

(** *** pruneBlob *)

(** The loop visits keys as long as [remaining] exceeds the maximum,
    and sends a removal for every visited key that resolves. *)
Lemma pruneLoop_spec g o (nm : gmap string StorageNode) keys :
  ∀ remaining w,
    pruneLoop g o nm remaining keys w =
      set_queue w
        (queue w ++
           (removalTask o <$>
              omap (nm !!.)
                (take (Z.to_nat (remaining - MaxReplicas (globalConfig g)))
                   keys))).
Proof.
  induction keys as [|n keys IH]; intros remaining w; simpl.
  - rewrite take_nil. simpl. by rewrite app_nil_r, set_queue_same.
  - destruct (remaining <=? MaxReplicas (globalConfig g)) eqn:Hle.
    + apply Z.leb_le in Hle.
      replace (Z.to_nat (remaining - MaxReplicas (globalConfig g)))
        with 0%nat by lia.
      simpl. by rewrite app_nil_r, set_queue_same.
    + apply Z.leb_gt in Hle.
      replace (Z.to_nat (remaining - MaxReplicas (globalConfig g)))
        with (S (Z.to_nat (remaining - 1 - MaxReplicas (globalConfig g))))
        by lia.
      rewrite IH. simpl.
      destruct (nm !! n) as [sn|]; simpl; [|done].
      unfold set_queue. simpl. by rewrite <- app_assoc.
Qed.

Lemma omap_all_Some {A B} (f : A → option B) (l : list A) :
  Forall (λ x, is_Some (f x)) l → length (omap f l) = length l.
Proof.
  induction l as [|x l IH]; intros Hall; [done|].
  inversion Hall as [|? ? [y Hy] Hrest]; subst.
  cbn [omap list_omap]. rewrite Hy. cbn [length]. f_equal. by apply IH.
Qed.

(** C5 (amended). With an owner count [n] above the configured maximum
    [max], [pruneBlob] enqueues a removal task for each of the first
    [n - max] owners that the iteration over the owner map yields and
    that resolves to a node of the node list, skipping the ones that do
    not resolve; the owners that come after them in the iteration are
    retained (the loop stops before it visits them).  For a maximum that
    is not negative these are [max] owners, and when every id resolves
    exactly [n - max] tasks are enqueued. *)
Theorem pruneBlob_drops_first_excess_owners g o nodemap nl w :
  let max := MaxReplicas (globalConfig g) in
  let n := Z.of_nat (length nodemap) in
  max < n →
  let excess := Z.to_nat (n - max) in
  let visited := take excess nodemap.*1 in
  let retained := drop excess nodemap.*1 in
  let w' := pruneBlob name g o nodemap nl w in
  queue w' =
    (queue w ++ (removalTask o <$> omap (nodesByName name nl !!.) visited))
      %list ∧
  store w' = store w ∧
  trace w' = trace w ∧
  nodemap.*1 = (visited ++ retained)%list ∧
  (0 ≤ max →
     Z.of_nat (length visited) = n - max ∧
     Z.of_nat (length retained) = max ∧
     (Forall (λ k, is_Some (nodesByName name nl !! k)) nodemap.*1 →
        Z.of_nat (length (queue w'))
          = Z.of_nat (length (queue w)) + (n - max))).
Proof.
  intros max n Hn excess visited retained w'.
  assert (Hlen : length nodemap.*1 = length nodemap) by apply length_fmap.
  assert (Hq : queue w' = (queue w ++
            (removalTask o <$> omap (nodesByName name nl !!.) visited))%list).
  { subst w'. unfold pruneBlob. by rewrite pruneLoop_spec. }
  split; [done|]. split; [|split; [|split]].
  - subst w'. unfold pruneBlob. by rewrite pruneLoop_spec.
  - subst w'. unfold pruneBlob. by rewrite pruneLoop_spec.
  - subst visited retained. by rewrite take_drop.
  - intros Hmax.
    assert (Hvis : length visited = excess).
    { subst visited. rewrite length_take. lia. }
    split; [lia|]. split.
    + subst retained. rewrite length_drop. lia.
    + intros Hall. rewrite Hq, length_app, length_fmap.
      rewrite omap_all_Some; [lia|].
      subst visited. by apply Forall_take.
Qed.

(** *** ensureMinimumReplicaCount *)

Lemma waitForGC_spec polls : ∀ w,
  waitForGC polls w =
    {| store := store w; queue := queue w;
       trace := trace w ++ replicate polls (EvSleep 5) |}.
Proof.
  induction polls as [|polls IH]; intros w; simpl.
  - rewrite app_nil_r. by destruct w.
  - rewrite IH. simpl. by rewrite <- app_assoc.
Qed.

Lemma salvageRows_spec nl rows : ∀ w,
  Forall (λ id, id ≠ "") rows →
  salvageRows candidatesFor named rows nl w =
    Ret (foldl (λ w id, salvageBlob candidatesFor named (str_tail id) "" nl w)
           w rows).
Proof.
  induction rows as [|id rows IH]; intros w Hrows; simpl; [done|].
  inversion Hrows as [|? ? Hid Hrest]; subst.
  destruct id as [|ch id]; [done|]. simpl. by apply IH.
Qed.

Lemma salvage_fold_spec nl rows : ∀ w,
  let w' :=
    foldl (λ w id, salvageBlob candidatesFor named (str_tail id) "" nl w)
      w rows in
  store w' = store w ∧ trace w' = trace w ∧
  queue w' =
    (queue w ++
       omap (λ id, acquireTask (str_tail id) "" <$>
                     head (candidatesFor nl (str_tail id) [named nl ""]))
         rows)%list.
Proof.
  induction rows as [|id rows IH]; intros w; simpl.
  - by rewrite app_nil_r.
  - destruct (IH (salvageBlob candidatesFor named (str_tail id) "" nl w))
      as (Hs & Ht & Hq).
    rewrite Hs, Ht, Hq. unfold salvageBlob.
    destruct (candidatesFor nl (str_tail id) [named nl ""]) as [|c0 cs];
      simpl; [done|].
    by rewrite <- app_assoc.
Qed.

(** One run of the task once the nodes are listed: the query that is
    made, and what follows from its answer. *)
Lemma ensureMinimumReplicaCountTask_run e g w nl :
  let cfg := globalConfig g in
  let endKey :=
    if MinReplicas cfg >? Z.of_nat (length nl)
    then int_sub (Z.of_nat (length nl)) 1 else int_sub (MinReplicas cfg) 1 in
  let params : ViewParams :=
    {[ "reduce" := PBool false;
       "limit" := PInt (ReplicationCheckLimit cfg);
       "startkey" := PInt 1;
       "endkey" := PInt endKey;
       "stale" := PBool false ]} in
  let run := ensureMinimumReplicaCountTask candidatesFor named e g w in
  let queried :=
    emit (EvView "cbfs" "repcounts" params) (waitForGC (gcPolls e) w) in
  findAllNodes e = Some nl →
  trace queried =
    trace w ++ replicate (gcPolls e) (EvSleep 5)
            ++ [EvView "cbfs" "repcounts" params] ∧
  store queried = store w ∧
  queue queried = queue w ∧
  (ViewCustom e "cbfs" "repcounts" params = None →
     run = Ret (queried, Some ErrStore)) ∧
  (∀ rows,
     ViewCustom e "cbfs" "repcounts" params = Some rows →
     Forall (λ id, id ≠ "") rows →
     ∃ w',
       run = Ret (w', None) ∧
       w' =
         foldl (λ w id, salvageBlob candidatesFor named (str_tail id) "" nl w)
           queried rows ∧
       trace w' = trace queried ∧
       store w' = store w ∧
       queue w' =
         queue w ++
           omap (λ id, acquireTask (str_tail id) "" <$>
                         head (candidatesFor nl (str_tail id) [named nl ""]))
             rows).
Proof.
  intros cfg endKey params run queried Hnl.
  assert (Hrun : run =
    match ViewCustom e "cbfs" "repcounts" params with
    | None => Ret (queried, Some ErrStore)
    | Some rows =>
        w ← salvageRows candidatesFor named rows nl queried; Ret (w, None)
    end).
  { subst run. unfold ensureMinimumReplicaCountTask. by rewrite Hnl. }
  assert (Hq : trace queried =
            trace w ++ replicate (gcPolls e) (EvSleep 5)
                    ++ [EvView "cbfs" "repcounts" params] ∧
          store queried = store w ∧ queue queried = queue w).
  { subst queried. rewrite waitForGC_spec. simpl.
    by rewrite <- app_assoc. }
  destruct Hq as (Htrace & Hstore & Hqueue).
  split; [done|]. split; [done|]. split; [done|]. split.
  - intros Hview. by rewrite Hrun, Hview.
  - intros rows Hview Hrows. rewrite Hrun, Hview.
    rewrite (salvageRows_spec nl rows _ Hrows). simpl.
    eexists. split; [done|]. split; [done|].
    destruct (salvage_fold_spec nl rows queried) as (Hs & Ht & Hqu).
    rewrite Hs, Ht, Hqu, Hstore, Hqueue. done.
Qed.

(** For every configuration whose [MinReplicas] is above the least
    [int], [ensureMinimumReplicaCount] waits for the garbage collector
    and then issues exactly one query to the replica-count view, over
    the key range from 1 to [min(MinReplicas - 1, nodeCount - 1)] and
    limited to the batch size.  If the query fails, so does the call,
    and nothing is enqueued.  Otherwise, for each returned row, in
    order, it calls salvage on the blob id of the row (the id of the row
    without its first byte) with the empty dead-node id and the full
    node list, which enqueues an acquire task with no previous owner for
    the best candidate, if there is one. *)
Lemma ensureMinimumReplicaCount_queries_range_and_salvages e g w nl :
  let cfg := globalConfig g in
  let params : ViewParams :=
    {[ "reduce" := PBool false;
       "limit" := PInt (ReplicationCheckLimit cfg);
       "startkey" := PInt 1;
       "endkey" :=
         PInt (Z.min (MinReplicas cfg - 1) (Z.of_nat (length nl) - 1));
       "stale" := PBool false ]} in
  let run := ensureMinimumReplicaCountTask candidatesFor named e g w in
  let queried :=
    emit (EvView "cbfs" "repcounts" params) (waitForGC (gcPolls e) w) in
  minInt < MinReplicas cfg ≤ maxInt →
  findAllNodes e = Some nl →
  trace queried =
    trace w ++ replicate (gcPolls e) (EvSleep 5)
            ++ [EvView "cbfs" "repcounts" params] ∧
  store queried = store w ∧
  queue queried = queue w ∧
  (ViewCustom e "cbfs" "repcounts" params = None →
     run = Ret (queried, Some ErrStore)) ∧
  (∀ rows,
     ViewCustom e "cbfs" "repcounts" params = Some rows →
     Forall (λ id, id ≠ "") rows →
     ∃ w',
       run = Ret (w', None) ∧
       w' =
         foldl (λ w id, salvageBlob candidatesFor named (str_tail id) "" nl w)
           queried rows ∧
       trace w' = trace queried ∧
       store w' = store w ∧
       queue w' =
         queue w ++
           omap (λ id, acquireTask (str_tail id) "" <$>
                         head (candidatesFor nl (str_tail id) [named nl ""]))
             rows).
Proof.
  intros cfg params run queried Hint Hnl.
  pose proof (ensureMinimumReplicaCountTask_run e g w nl Hnl) as Hspec.
  cbv zeta in Hspec. fold cfg in Hspec.
  assert (Hend :
    (if MinReplicas cfg >? Z.of_nat (length nl)
     then int_sub (Z.of_nat (length nl)) 1 else int_sub (MinReplicas cfg) 1)
    = Z.min (MinReplicas cfg - 1) (Z.of_nat (length nl) - 1)).
  { unfold int_sub.
    destruct (MinReplicas cfg >? Z.of_nat (length nl)) eqn:Hgt.
    - apply Z.gtb_lt in Hgt.
      rewrite int_wrap_id by (unfold minInt, maxInt in *; lia). lia.
    - rewrite Z.gtb_ltb in Hgt. apply Z.ltb_ge in Hgt.
      rewrite int_wrap_id by (unfold minInt, maxInt in *; lia). lia. }
  rewrite Hend in Hspec. exact Hspec.
Qed.

(** C8 (failing input). With the least [int] as [MinReplicas] the
    subtraction [MinReplicas - 1] wraps around and the guard against
    more replicas than nodes does not apply: the one query that
    [ensureMinimumReplicaCount] issues is over the key range from 1 to
    the greatest [int], which is not [min(MinReplicas - 1,
    nodeCount - 1)], and every returned row is salvaged. *)
Theorem ensureMinimumReplicaCount_wraps_at_least_int e g w nl :
  let cfg := globalConfig g in
  let params : ViewParams :=
    {[ "reduce" := PBool false;
       "limit" := PInt (ReplicationCheckLimit cfg);
       "startkey" := PInt 1;
       "endkey" := PInt maxInt;
       "stale" := PBool false ]} in
  let run := ensureMinimumReplicaCountTask candidatesFor named e g w in
  let queried :=
    emit (EvView "cbfs" "repcounts" params) (waitForGC (gcPolls e) w) in
  MinReplicas cfg = minInt →
  findAllNodes e = Some nl →
  maxInt ≠ Z.min (MinReplicas cfg - 1) (Z.of_nat (length nl) - 1) ∧
  trace queried =
    trace w ++ replicate (gcPolls e) (EvSleep 5)
            ++ [EvView "cbfs" "repcounts" params] ∧
  (ViewCustom e "cbfs" "repcounts" params = None →
     run = Ret (queried, Some ErrStore)) ∧
  (∀ rows,
     ViewCustom e "cbfs" "repcounts" params = Some rows →
     Forall (λ id, id ≠ "") rows →
     ∃ w',
       run = Ret (w', None) ∧
       trace w' = trace queried ∧
       queue w' =
         queue w ++
           omap (λ id, acquireTask (str_tail id) "" <$>
                         head (candidatesFor nl (str_tail id) [named nl ""]))
             rows).
Proof.
  intros cfg params run queried Hmin Hnl.
  pose proof (ensureMinimumReplicaCountTask_run e g w nl Hnl) as Hspec.
  cbv zeta in Hspec. fold cfg in Hspec.
  assert (Hend :
    (if MinReplicas cfg >? Z.of_nat (length nl)
     then int_sub (Z.of_nat (length nl)) 1 else int_sub (MinReplicas cfg) 1)
    = maxInt).
  { rewrite Hmin.
    assert (Hle : (minInt >? Z.of_nat (length nl)) = false).
    { rewrite Z.gtb_ltb. apply Z.ltb_ge. unfold minInt. lia. }
    rewrite Hle. reflexivity. }
  rewrite Hend in Hspec.
  destruct Hspec as (Htrace & _ & _ & Hfail & Hrows).
  split; [rewrite Hmin; unfold minInt, maxInt; lia|].
  split; [exact Htrace|]. split; [exact Hfail|].
  intros rows Hview Hne.
  destruct (Hrows rows Hview Hne) as (w' & Hrun & _ & Htr & _ & Hq).
  by exists w'.
Qed.

(** *** performFetch *)

(** [removeBlobOwnershipRecord] always returns. *)
Lemma removeBlobOwnershipRecord_returns g h nd (st : Store) :
  returns (removeBlobOwnershipRecord json_Unmarshal mustEncode g h nd st).
Proof.
  unfold returns, removeBlobOwnershipRecord, mc_CAS,
    removeBlobOwnershipRecord_cas.
  destruct (length _ =? 0)%nat; simpl; [by eexists|].
  destruct (json_Unmarshal _); simpl; [|by eexists].
  destruct (_ && _); simpl; by eexists.
Qed.

(** *** internodeTaskWorker *)

(** C9. A task whose command is none of the three known ones makes the
    worker log a fatal error and exit: running the task is fatal, and a
    worker that receives it as the oldest task of the queue ends there,
    whatever follows in the queue. *)
Theorem unknown_command_terminates_process e g c w fuel rest :
  cmd c ≠ removeObjectCmd →
  cmd c ≠ acquireObjectCmd →
  cmd c ≠ fetchObjectCmd →
  runTask json_Unmarshal mustEncode name e g c w
    = Fatal "Unhandled worker task" ∧
  (queue w = c :: rest →
   internodeTaskWorker json_Unmarshal mustEncode name (S fuel) e g w
     = Fatal "Unhandled worker task" ∧
   ¬ returns
       (internodeTaskWorker json_Unmarshal mustEncode name (S fuel) e g w)).
Proof.
  intros H0 H1 H2.
  assert (Hrun : ∀ w, runTask json_Unmarshal mustEncode name e g c w
                      = Fatal "Unhandled worker task").
  { intros w0. unfold runTask.
    rewrite (proj2 (Z.eqb_neq _ _) H0), (proj2 (Z.eqb_neq _ _) H1).
    by rewrite (proj2 (Z.eqb_neq _ _) H2). }
  split; [apply Hrun|].
  intros Hq. simpl. rewrite Hq, Hrun. simpl.
  split; [done|]. by intros [? ?].
Qed.

End NodeProperties.

(** ** The most recent storer *)

Lemma mostRecent_snoc l nt :
  mostRecent (l ++ [nt]) =
    if (mostRecent l).2 <? nt.2 then nt else mostRecent l.
Proof. unfold mostRecent. by rewrite foldl_app. Qed.

(** What [mostRecent] returns, on the entries in iteration order. *)
Lemma mostRecent_spec l :
  let rv := mostRecent l in
  Forall (λ nt, nt.2 ≤ rv.2) l ∧
  0 ≤ rv.2 ∧
  (rv.2 = 0 → rv.1 = "") ∧
  (0 < rv.2 →
     ∃ pre post, l = pre ++ rv :: post ∧ Forall (λ nt, nt.2 < rv.2) pre).
Proof.
  induction l as [|nt l IH] using rev_ind; simpl.
  { split; [done|]. split; [done|]. split; [done|]. intros H. by vm_compute in H. }
  rewrite mostRecent_snoc. destruct IH as (Hle & Hpos & Hzero & Hfirst).
  destruct ((mostRecent l).2 <? nt.2) eqn:Hlt.
  - apply Z.ltb_lt in Hlt. split; [|split; [lia|split; [lia|]]].
    + apply Forall_app. split; [|by constructor].
      eapply Forall_impl; [exact Hle|]. simpl. intros; lia.
    + intros _. exists l, []. split; [done|].
      eapply Forall_impl; [exact Hle|]. simpl. intros; lia.
  - apply Z.ltb_ge in Hlt. split; [|split; [done|split; [done|]]].
    + apply Forall_app. split; [done|]. by constructor.
    + intros Hp. destruct (Hfirst Hp) as (pre & post & Hl & Hpre).
      exists pre, (post ++ [nt]). split; [|done].
      transitivity ((pre ++ mostRecent l :: post) ++ [nt]);
        [by rewrite <- Hl|by rewrite <- app_assoc].
Qed.

(** X1. [mostRecent] on the owners of a record, whatever order the
    iteration over the owner map takes.  The returned time is not before
    the timestamp of any owner.  When it is after the zero time, the
    returned node is an owner and the time is its timestamp.  When no
    owner has a timestamp after the zero time, in particular when there
    is no owner, the result is the empty node id with the zero time.  The
    returned time is the same for every order of iteration. *)
Theorem mostRecent_is_latest (m : gmap string Time)
    (order : list (string * Time)) :
  order ≡ₚ map_to_list m →
  let rv := mostRecent order in
  (∀ k t, m !! k = Some t → t ≤ rv.2) ∧
  (0 < rv.2 → m !! rv.1 = Some rv.2) ∧
  ((∀ k t, m !! k = Some t → t ≤ 0) → rv = ("", zeroTime)) ∧
  (∀ order', order' ≡ₚ map_to_list m → (mostRecent order').2 = rv.2).
Proof.
  intros Hperm rv.
  assert (Hchar : ∀ o, o ≡ₚ map_to_list m →
    (∀ k t, m !! k = Some t → t ≤ (mostRecent o).2) ∧
    0 ≤ (mostRecent o).2 ∧
    ((mostRecent o).2 = 0 → (mostRecent o).1 = "") ∧
    (0 < (mostRecent o).2 → m !! (mostRecent o).1 = Some (mostRecent o).2)).
  { intros o Ho. destruct (mostRecent_spec o) as (Hle & Hpos & Hz & Hfirst).
    split; [|split; [done|split; [done|]]].
    - intros k t Hk. apply elem_of_map_to_list in Hk. rewrite <- Ho in Hk.
      by apply (proj1 (Forall_forall _ _) Hle (k, t)).
    - intros Hp. destruct (Hfirst Hp) as (pre & post & Hl & _).
      apply elem_of_map_to_list. rewrite <- Ho.
      destruct (mostRecent o) as [n t]. simpl in *. rewrite Hl.
      apply elem_of_app. right. apply list_elem_of_here. }
  destruct (Hchar order Hperm) as (Hub & Hpos & Hz & Hin).
  split; [done|]. split; [done|]. split.
  - intros Hall. assert (Hzero : rv.2 = 0).
    { destruct (decide (0 < rv.2)) as [Hp|]; [|subst rv; unfold Time in *; lia].
      specialize (Hall _ _ (Hin Hp)). subst rv. unfold Time in *. lia. }
    subst rv. destruct (mostRecent order) as [n t]. simpl in *.
    unfold zeroTime. by rewrite (Hz Hzero), Hzero.
  - intros order' Hperm'.
    destruct (Hchar order' Hperm') as (Hub' & Hpos' & _ & Hin').
    destruct (decide (0 < rv.2)) as [Hp|Hp];
      destruct (decide (0 < (mostRecent order').2)) as [Hp'|Hp'].
    + specialize (Hub' _ _ (Hin Hp)). specialize (Hub _ _ (Hin' Hp')).
      subst rv. unfold Time in *. lia.
    + specialize (Hub' _ _ (Hin Hp)). subst rv. unfold Time in *. lia.
    + specialize (Hub _ _ (Hin' Hp')). subst rv. unfold Time in *. lia.
    + subst rv. unfold Time in *. lia.
Qed.

(** ** More on the ownership manager

    Edge cases of the three operations on a record, and how they
    compose. *)

Section MoreOwnershipProperties.

Variable json_Unmarshal : list byte → option BlobOwnership.
Variable mustEncode : BlobOwnership → list byte.

Lemma body_of_nonempty (st : Store) k :
  body_of st k ≠ [] → st !! k = Some (body_of st k).
Proof. unfold body_of. by destruct (st !! k). Qed.

Lemma with_Nodes_same b : with_Nodes b (Nodes b) = b.
Proof. by destruct b. Qed.

Lemma gomap_delete_absent {T} (m : gomap T) k :
  gomap_get m k = None → gomap_delete m k = m.
Proof.
  destruct m as [m|]; simpl; [|done]. intros H. by rewrite delete_id.
Qed.

Lemma gomap_get_delete_ne {T} (m : gomap T) k k' :
  k' ≠ k → gomap_get (gomap_delete m k) k' = gomap_get m k'.
Proof.
  intros Hne. destruct m as [m|]; simpl; [|done]. by rewrite lookup_delete_ne.
Qed.

(** The three ways in which [removeBlobOwnershipRecord] ends. *)
Lemma removeBlobOwnershipRecord_cases g h node (st : Store) :
  let k := "/" +:+ h in
  (body_of st k = [] ∨ json_Unmarshal (body_of st k) = None) ∧
  removeBlobOwnershipRecord json_Unmarshal mustEncode g h node st
    = Ret (st, -1)
  ∨
  ∃ b, body_of st k ≠ [] ∧ json_Unmarshal (body_of st k) = Some b ∧
    let b' := with_Nodes b (gomap_delete (Nodes b) node) in
    let n := gomap_len (Nodes b') in
    removeBlobOwnershipRecord json_Unmarshal mustEncode g h node st =
      Ret (if n =? 0
           then if bool_decide (node = serverId g)
                then delete (k +:+ "/r") (delete k st)
                else delete (k +:+ "/r") (<[k := mustEncode b']> st)
           else <[k := mustEncode b']> st,
           n).
Proof.
  intros k. destruct (decide (body_of st k = [])) as [Hempty|Hne].
  { left. split; [by left|].
    unfold removeBlobOwnershipRecord, mc_CAS, removeBlobOwnershipRecord_cas.
    fold k. by rewrite Hempty. }
  destruct (json_Unmarshal (body_of st k)) as [b|] eqn:Hdec.
  - right. exists b. split; [done|]. split; [done|].
    apply (removeBlobOwnershipRecord_spec json_Unmarshal mustEncode
             g h node st (body_of st k) b); [|done|done].
    by apply body_of_nonempty.
  - left. split; [by right|].
    unfold removeBlobOwnershipRecord, mc_CAS, removeBlobOwnershipRecord_cas.
    fold k. rewrite (length_eqb_0 _ Hne), Hdec. done.
Qed.

(** X5. On a blob without a record (or with an empty one)
    [removeBlobOwnershipRecord] reports -1 owners and
    [maybeRemoveBlobOwnership] reports success; on a record that does
    not decode the first reports -1 and the second the decoding error.
    The bucket is unchanged in all four cases: no counter is deleted. *)
Theorem removal_of_missing_or_corrupt_record g h node now (st : Store) :
  let k := "/" +:+ h in
  (body_of st k = [] →
     removeBlobOwnershipRecord json_Unmarshal mustEncode g h node st
       = Ret (st, -1) ∧
     maybeRemoveBlobOwnership json_Unmarshal mustEncode g h now st
       = Ret (st, None)) ∧
  (body_of st k ≠ [] → json_Unmarshal (body_of st k) = None →
     removeBlobOwnershipRecord json_Unmarshal mustEncode g h node st
       = Ret (st, -1) ∧
     maybeRemoveBlobOwnership json_Unmarshal mustEncode g h now st
       = Ret (st, Some ErrJSON)).
Proof.
  intros k. split.
  - intros Hempty.
    unfold removeBlobOwnershipRecord, maybeRemoveBlobOwnership, mc_CAS,
      removeBlobOwnershipRecord_cas, maybeRemoveBlobOwnership_cas.
    fold k. by rewrite Hempty.
  - intros Hne Hdec.
    unfold removeBlobOwnershipRecord, maybeRemoveBlobOwnership, mc_CAS,
      removeBlobOwnershipRecord_cas, maybeRemoveBlobOwnership_cas.
    fold k. by rewrite (length_eqb_0 _ Hne), Hdec.
Qed.

(** X6. Removing an owner twice.  After [removeBlobOwnershipRecord]
    has returned, the same call on the bucket it left changes nothing
    any more, and it reports the same number of owners if the record is
    still there. *)
Theorem removeOwner_is_idempotent g h node (st st1 : Store) n1 :
  CodecLaws json_Unmarshal mustEncode →
  removeBlobOwnershipRecord json_Unmarshal mustEncode g h node st
    = Ret (st1, n1) →
  ∃ n2,
    removeBlobOwnershipRecord json_Unmarshal mustEncode g h node st1
      = Ret (st1, n2) ∧
    (is_Some (st1 !! ("/" +:+ h)) → n2 = n1).
Proof.
  intros Hlaws Hrun. pose proof Hlaws as [He Hr].
  set (k := "/" +:+ h) in *.
  assert (Hkr : k +:+ "/r" ≠ k) by apply counter_key_ne.
  destruct (removeBlobOwnershipRecord_cases g h node st)
    as [[_ Hquit]|(b & Hne & Hdec & Hspec)].
  { rewrite Hquit in Hrun. injection Hrun as <- <-.
    exists (-1). by split. }
  cbv zeta in Hspec. fold k in Hspec. rewrite Hspec in Hrun. clear Hspec.
  set (b' := with_Nodes b (gomap_delete (Nodes b) node)) in *.
  set (n := gomap_len (Nodes b')) in *.
  assert (Hb'' : with_Nodes b' (gomap_delete (Nodes b') node) = b').
  { rewrite gomap_delete_absent; [apply with_Nodes_same|].
    apply gomap_get_delete. }
  assert (Hstored : ∀ st0 : Store, st0 !! k = Some (mustEncode b') →
    removeBlobOwnershipRecord json_Unmarshal mustEncode g h node st0 =
      Ret (if n =? 0
           then if bool_decide (node = serverId g)
                then delete (k +:+ "/r") (delete k st0)
                else delete (k +:+ "/r") (<[k := mustEncode b']> st0)
           else <[k := mustEncode b']> st0, n)).
  { intros st0 Hst0.
    pose proof (removeBlobOwnershipRecord_spec json_Unmarshal mustEncode
                  g h node st0 (mustEncode b') b' Hst0
                  (encode_nonempty _ _ b' Hlaws) (Hr b')) as Hs.
    cbv zeta in Hs. rewrite Hb'' in Hs. exact Hs. }
  destruct (n =? 0) eqn:Hn;
    [destruct (bool_decide (node = serverId g)) eqn:Hloc|];
    injection Hrun as Hst <-.
  - (* deleted *)
    subst st1.
    destruct (removeBlobOwnershipRecord_cases g h node
                (delete (k +:+ "/r") (delete k st)))
      as [[_ Hquit]|(b0 & Hne0 & _)].
    + exists (-1). split; [exact Hquit|].
      rewrite lookup_delete_ne, lookup_delete_eq by done. by intros [? ?].
    + exfalso. apply Hne0. fold k. unfold body_of.
      by rewrite lookup_delete_ne, lookup_delete_eq by done.
  - subst st1. exists n. split; [|done].
    rewrite Hstored by (by rewrite lookup_delete_ne, lookup_insert_eq).
    rewrite ?Hn, ?Hloc. f_equal. f_equal.
    rewrite insert_delete_ne by done. rewrite insert_insert_eq.
    apply map_eq. intros i. destruct (decide (i = k +:+ "/r")) as [->|Hi].
    + by rewrite !lookup_delete_eq.
    + by rewrite !lookup_delete_ne by done.
  - subst st1. exists n. split; [|done].
    rewrite Hstored by apply lookup_insert_eq.
    rewrite ?Hn. by rewrite insert_insert_eq.
Qed.

(** What a call of [recordBlobOwnership] that writes leaves in the
    bucket: a record of this blob in which the local node has the
    timestamp of the call. *)
Lemma recordBlobOwnership_writes g h l force now (st st1 : Store) err :
  recordBlobOwnership json_Unmarshal mustEncode g h l force now st
    = Ret (st1, err) →
  force = true ∨
  (∀ b, json_Unmarshal (body_of st ("/" +:+ h)) = Some b →
        gomap_get (Nodes b) (serverId g) = None) →
  ∃ m, st1 = <["/" +:+ h :=
                mustEncode {| OID := h; Length := l; Nodes := Some m;
                              Type_ := "blob" |}]> st ∧
       m !! serverId g = Some now ∧
       (∀ other, other ≠ serverId g →
          m !! other =
            match json_Unmarshal (body_of st ("/" +:+ h)) with
            | Some b => gomap_get (Nodes b) other
            | None => None
            end).
Proof.
  intros Hrun Hwrites.
  unfold recordBlobOwnership, mc_CAS, recordBlobOwnership_cas in Hrun.
  destruct (json_Unmarshal (body_of st ("/" +:+ h))) as [b|] eqn:Hdec.
  - assert (Hcond : bool_decide (is_Some (gomap_get (Nodes b) (serverId g)))
                    && negb force = false).
    { destruct Hwrites as [->|Habs]; [by rewrite andb_false_r|].
      rewrite (Habs b eq_refl). rewrite bool_decide_eq_false_2; [done|].
      by intros [? ?]. }
    rewrite Hcond in Hrun. destruct (Nodes b) as [m|] eqn:Hm; [|done].
    simpl in Hrun. injection Hrun as <- _.
    exists (<[serverId g := now]> m). split; [done|].
    split; [apply lookup_insert_eq|].
    intros other Hother. by rewrite lookup_insert_ne.
  - simpl in Hrun. injection Hrun as <- _.
    exists {[ serverId g := now ]}. split; [done|].
    split; [apply lookup_singleton_eq|].
    intros other Hother. by rewrite lookup_singleton_ne.
Qed.

(** X7. A node stores a blob that has no record and is then removed
    as its owner: the affirmation succeeds and the record can be read
    back; the removal reports 0 owners and leaves the bucket from before
    the affirmation without the counter of the blob; the record cannot
    be read any more. *)
Theorem affirm_then_remove_restores_bucket g h l force now (st : Store) :
  CodecLaws json_Unmarshal mustEncode →
  st !! ("/" +:+ h) = None →
  let k := "/" +:+ h in
  ∃ st1 : Store,
    recordBlobOwnership json_Unmarshal mustEncode g h l force now st
      = Ret (st1, None) ∧
    (getBlobOwnership json_Unmarshal h st1).2 = None ∧
    removeBlobOwnershipRecord json_Unmarshal mustEncode g h (serverId g) st1
      = Ret (delete (k +:+ "/r") st, 0) ∧
    getBlobOwnership json_Unmarshal h (delete (k +:+ "/r") st)
      = (BlobOwnership_zero, Some ErrStore).
Proof.
  intros Hlaws Hk k. pose proof Hlaws as [He Hr]. fold k in Hk.
  assert (Hkr : k +:+ "/r" ≠ k) by apply counter_key_ne.
  set (r := {| OID := h; Length := l;
               Nodes := Some {[ serverId g := now ]}; Type_ := "blob" |}).
  exists (<[k := mustEncode r]> st). split; [|split; [|split]].
  - apply (recordBlobOwnership_fresh json_Unmarshal mustEncode).
    fold k. by rewrite (body_of_None _ _ Hk).
  - unfold getBlobOwnership. fold k. by rewrite lookup_insert_eq, Hr.
  - rewrite (removeBlobOwnershipRecord_spec json_Unmarshal mustEncode g h
               (serverId g) (<[k := mustEncode r]> st) (mustEncode r) r);
      [|apply lookup_insert_eq
       |apply (encode_nonempty json_Unmarshal mustEncode _ Hlaws)|apply Hr].
    simpl. rewrite delete_singleton_eq, map_size_empty. simpl.
    rewrite bool_decide_eq_true_2 by done. fold k.
    by rewrite delete_insert_id.
  - unfold getBlobOwnership. fold k.
    by rewrite lookup_delete_ne, Hk.
Qed.

(** X8. After an affirmation that wrote the record at time [t] (a
    forced one, or one by a node that was not an owner),
    [maybeRemoveBlobOwnership] by the same node less than an hour after
    [t] is refused as [too soon] and leaves the bucket as it is. *)
Theorem no_self_removal_within_the_hour
    g h l force t t' (st st1 : Store) err :
  CodecLaws json_Unmarshal mustEncode →
  recordBlobOwnership json_Unmarshal mustEncode g h l force t st
    = Ret (st1, err) →
  force = true ∨
  (∀ b, json_Unmarshal (body_of st ("/" +:+ h)) = Some b →
        gomap_get (Nodes b) (serverId g) = None) →
  t' - t < Hour →
  maybeRemoveBlobOwnership json_Unmarshal mustEncode g h t' st1
    = Ret (st1, Some (ErrNew "too soon")).
Proof.
  intros Hlaws Hrun Hwrites Hsoon. pose proof Hlaws as [He Hr].
  destruct (recordBlobOwnership_writes g h l force t st st1 err Hrun Hwrites)
    as (m & -> & Hself & _).
  rewrite (maybeRemoveBlobOwnership_spec json_Unmarshal mustEncode g h t'
             _ _ _ (lookup_insert_eq _ _ _)
             (encode_nonempty _ _ _ Hlaws) (Hr _)).
  simpl. rewrite Hself. simpl.
  by rewrite (proj2 (Z.ltb_lt _ _) Hsoon).
Qed.

(** X2. An affirmation of a blob whose record decodes with an
    allocated owner map reports no error, and in the record read back
    afterwards every other owner has the timestamp it had.  If the local
    node was an owner and the call is not forced, bucket and record are
    as before.  Otherwise the local node has the timestamp of the call,
    and the id, the length and the type of the record are those of the
    call. *)
Theorem affirmation_keeps_other_owners
    g h l force now (st : Store) inb b m :
  CodecLaws json_Unmarshal mustEncode →
  st !! ("/" +:+ h) = Some inb →
  json_Unmarshal inb = Some b →
  Nodes b = Some m →
  ∃ (st1 : Store) b1,
    recordBlobOwnership json_Unmarshal mustEncode g h l force now st
      = Ret (st1, None) ∧
    getBlobOwnership json_Unmarshal h st1 = (b1, None) ∧
    (∀ other, other ≠ serverId g →
       gomap_get (Nodes b1) other = m !! other) ∧
    (is_Some (m !! serverId g) → force = false → st1 = st ∧ b1 = b) ∧
    (m !! serverId g = None ∨ force = true →
       gomap_get (Nodes b1) (serverId g) = Some now ∧
       OID b1 = h ∧ Length b1 = l ∧ Type_ b1 = "blob").
Proof.
  intros Hlaws Hk Hdec Hm. pose proof Hlaws as [He Hr].
  assert (Hbody : json_Unmarshal (body_of st ("/" +:+ h)) = Some b).
  { by rewrite (body_of_Some _ _ _ Hk). }
  destruct (m !! serverId g) as [t|] eqn:Hself;
    [destruct force eqn:Hforce|].
  - exists (<["/" +:+ h := mustEncode
               {| OID := h; Length := l;
                  Nodes := Some (<[serverId g := now]> m);
                  Type_ := "blob" |}]> st),
           {| OID := h; Length := l;
              Nodes := Some (<[serverId g := now]> m);
              Type_ := "blob" |}.
    split; [by apply (recordBlobOwnership_update json_Unmarshal mustEncode
                        g h l true now st b m); [| |right]|].
    split; [unfold getBlobOwnership; by rewrite lookup_insert_eq, Hr|].
    simpl. split; [by intros other Ho; rewrite lookup_insert_ne|].
    split; [done|]. intros _. by rewrite lookup_insert_eq.
  - exists st, b.
    split; [by apply (recordBlobOwnership_noop json_Unmarshal mustEncode
                        g h l now st b t); [|rewrite Hm]|].
    split; [unfold getBlobOwnership; by rewrite Hk, Hdec|].
    rewrite Hm. simpl. split; [done|]. split; [done|].
    by intros [?|?].
  - exists (<["/" +:+ h := mustEncode
               {| OID := h; Length := l;
                  Nodes := Some (<[serverId g := now]> m);
                  Type_ := "blob" |}]> st),
           {| OID := h; Length := l;
              Nodes := Some (<[serverId g := now]> m);
              Type_ := "blob" |}.
    split; [by apply (recordBlobOwnership_update json_Unmarshal mustEncode
                        g h l force now st b m); [| |left]|].
    split; [unfold getBlobOwnership; by rewrite lookup_insert_eq, Hr|].
    simpl. split; [by intros other Ho; rewrite lookup_insert_ne|].
    split; [by intros [? ?]|]. intros _. by rewrite lookup_insert_eq.
Qed.

(** X3. An affirmation of a blob without a record, or with a record
    that does not decode, writes a fresh record: read back, it has the
    id and the length of the call, the type [blob], and the local node
    as its only owner with the timestamp of the call.  No other key of
    the bucket changes. *)
Theorem affirmation_replaces_unreadable_record
    g h l force now (st : Store) :
  CodecLaws json_Unmarshal mustEncode →
  json_Unmarshal (body_of st ("/" +:+ h)) = None →
  ∃ st1 : Store,
    recordBlobOwnership json_Unmarshal mustEncode g h l force now st
      = Ret (st1, None) ∧
    getBlobOwnership json_Unmarshal h st1 =
      ({| OID := h; Length := l; Nodes := Some {[ serverId g := now ]};
          Type_ := "blob" |}, None) ∧
    (∀ key, key ≠ "/" +:+ h → st1 !! key = st !! key).
Proof.
  intros [He Hr] Hdec. eexists. split.
  { by apply (recordBlobOwnership_fresh json_Unmarshal mustEncode). }
  split.
  - unfold getBlobOwnership. by rewrite lookup_insert_eq, Hr.
  - intros key Hkey. by rewrite lookup_insert_ne.
Qed.

(** X9. [maybeRemoveBlobOwnership] changes no key of the bucket other
    than the record and the counter of the blob.  Whenever it changes
    the record, the record decoded and the call reports no error, at
    least [MinReplicas] owners are left, an affirmation of the local
    node in it was at least an hour old, and every other owner has kept
    its timestamp; what is left can be read back as the record without
    the local node, or, if no owner is left, the record is gone. *)
Theorem self_removal_changes_record_only_above_minimum
    g h now (st st' : Store) rv :
  CodecLaws json_Unmarshal mustEncode →
  maybeRemoveBlobOwnership json_Unmarshal mustEncode g h now st
    = Ret (st', rv) →
  let k := "/" +:+ h in
  (∀ key, key ≠ k → key ≠ k +:+ "/r" → st' !! key = st !! key) ∧
  (st' !! k ≠ st !! k →
   ∃ b,
     json_Unmarshal (body_of st k) = Some b ∧
     rv = None ∧
     let b' := with_Nodes b (gomap_delete (Nodes b) (serverId g)) in
     MinReplicas (globalConfig g) ≤ gomap_len (Nodes b') ∧
     (∀ t, gomap_get (Nodes b) (serverId g) = Some t → Hour ≤ now - t) ∧
     (∀ other, other ≠ serverId g →
        gomap_get (Nodes b') other = gomap_get (Nodes b) other) ∧
     (gomap_len (Nodes b') ≠ 0 →
        getBlobOwnership json_Unmarshal h st' = (b', None)) ∧
     (gomap_len (Nodes b') = 0 → st' !! k = None)).
Proof.
  intros Hlaws Hrun k. pose proof Hlaws as [He Hr]. subst k.
  assert (Hkr : ("/" +:+ h) +:+ "/r" ≠ "/" +:+ h) by apply counter_key_ne.
  destruct (decide (body_of st ("/" +:+ h) = [])) as [Hempty|Hne].
  { unfold maybeRemoveBlobOwnership, mc_CAS, maybeRemoveBlobOwnership_cas
      in Hrun. rewrite Hempty in Hrun. simpl in Hrun.
    injection Hrun as <- <-. by split. }
  destruct (json_Unmarshal (body_of st ("/" +:+ h))) as [b|] eqn:Hdec.
  2:{ unfold maybeRemoveBlobOwnership, mc_CAS, maybeRemoveBlobOwnership_cas
        in Hrun. rewrite (length_eqb_0 _ Hne), Hdec in Hrun. simpl in Hrun.
      injection Hrun as <- <-. by split. }
  pose proof (maybeRemoveBlobOwnership_spec json_Unmarshal mustEncode
                g h now st (body_of st ("/" +:+ h)) b
                (body_of_nonempty st _ Hne) Hne Hdec) as Hspec.
  cbv zeta in Hspec. rewrite Hspec in Hrun. clear Hspec.
  destruct (now - default zeroTime (gomap_get (Nodes b) (serverId g)) <? Hour)
    eqn:Hsoon; [injection Hrun as <- <-; by split|].
  destruct (gomap_len (Nodes b) - 1 <? MinReplicas (globalConfig g))
    eqn:Hmin; [injection Hrun as <- <-; by split|].
  apply Z.ltb_ge in Hsoon, Hmin.
  pose proof (gomap_len_delete (Nodes b) (serverId g)) as Hlen.
  set (b' := with_Nodes b (gomap_delete (Nodes b) (serverId g))) in *.
  assert (Hframe : ∀ key, key ≠ "/" +:+ h → key ≠ ("/" +:+ h) +:+ "/r" →
                          st' !! key = st !! key).
  { intros key Hk1 Hk2.
    destruct (gomap_len (Nodes b') =? 0); injection Hrun as <- _;
      by rewrite ?lookup_delete_ne, ?lookup_insert_ne by congruence. }
  split; [exact Hframe|]. intros _. exists b. split; [done|].
  split; [by destruct (gomap_len (Nodes b') =? 0); injection Hrun as _ <-|].
  split; [subst b'; simpl; lia|].
  split; [intros t Ht; rewrite Ht in Hsoon; exact Hsoon|].
  split; [intros other Ho; subst b'; simpl; by apply gomap_get_delete_ne|].
  subst b'.
  destruct (gomap_len _ =? 0) eqn:Hz; injection Hrun as <- _.
  - apply Z.eqb_eq in Hz. split; [intros ?; lia|]. intros _.
    rewrite lookup_delete_ne by done. apply lookup_delete_eq.
  - apply Z.eqb_neq in Hz. split; [|intros ?; lia]. intros _.
    unfold getBlobOwnership. by rewrite lookup_insert_eq, Hr.
Qed.

(** X10. [maybeRemoveBlobOwnership] by a node that the record does
    not name, at least an hour after the zero time.  With at most
    [MinReplicas] owners the call is refused as [Insufficient replicas]
    and the bucket is as before; with more owners (and at least one) it
    reports success and writes the record back unchanged. *)
Theorem self_removal_by_non_owner g h now (st : Store) inb b :
  st !! ("/" +:+ h) = Some inb →
  inb ≠ [] →
  json_Unmarshal inb = Some b →
  gomap_get (Nodes b) (serverId g) = None →
  Hour ≤ now - zeroTime →
  let k := "/" +:+ h in
  let run := maybeRemoveBlobOwnership json_Unmarshal mustEncode g h now st in
  (gomap_len (Nodes b) ≤ MinReplicas (globalConfig g) →
     run = Ret (st, Some (ErrNew "Insufficient replicas"))) ∧
  (MinReplicas (globalConfig g) < gomap_len (Nodes b) →
   0 < gomap_len (Nodes b) →
     run = Ret (<[k := mustEncode b]> st, None)).
Proof.
  intros Hk Hne Hdec Hself Hnow k run. subst run.
  rewrite (maybeRemoveBlobOwnership_spec json_Unmarshal mustEncode
             g h now st inb b Hk Hne Hdec).
  cbv zeta. rewrite Hself. simpl.
  rewrite (proj2 (Z.ltb_ge _ _) Hnow).
  rewrite (gomap_delete_absent _ _ Hself), with_Nodes_same. split.
  - intros Hle. by rewrite (proj2 (Z.ltb_lt _ _)) by lia.
  - intros Hmin Hpos. rewrite (proj2 (Z.ltb_ge _ _)) by lia.
    by rewrite (proj2 (Z.eqb_neq _ _)) by lia.
Qed.

End MoreOwnershipProperties.

(** ** Access counters *)

Lemma parseCounter_showCounter n : parseCounter (showCounter n) = Some n.
Proof.
  unfold parseCounter, showCounter.
  rewrite String.string_of_list_byte_of_string.
  rewrite NilZero.usu.
  - simpl. by rewrite DecimalN.Unsigned.of_to.
  - destruct n as [|p]; [done|]. simpl.
    intros H. by apply (DecimalPos.Unsigned.to_uint_nonnil p).
Qed.

Lemma couchbase_Incr_other k k' amt def (st : Store) :
  k' ≠ k → (couchbase_Incr k amt def st).1 !! k' = st !! k'.
Proof.
  intros Hne. unfold couchbase_Incr.
  destruct (st !! k) as [b|]; [destruct (parseCounter b)|]; simpl;
    by rewrite ?lookup_insert_ne.
Qed.

Lemma couchbase_Incr_counts k (st : Store) n :
  counterAt st k = Some n → (n + 1 < 2 ^ 64)%N →
  counterAt (couchbase_Incr k 1 1 st).1 k = Some (n + 1)%N.
Proof.
  unfold counterAt, couchbase_Incr. intros Hn Hlt.
  destruct (st !! k) as [b|].
  - rewrite Hn. simpl. rewrite lookup_insert_eq, parseCounter_showCounter.
    by rewrite N.mod_small.
  - injection Hn as <-. simpl.
    by rewrite lookup_insert_eq, parseCounter_showCounter.
Qed.

Lemma couchbase_Incr_corrupt k amt def (st : Store) :
  counterAt st k = None → (couchbase_Incr k amt def st).1 = st.
Proof.
  unfold counterAt, couchbase_Incr. intros Hn.
  destruct (st !! k) as [b|]; [|done]. by rewrite Hn.
Qed.

Lemma recordBlobAccess_unfold g h (st : Store) :
  recordBlobAccess g h st =
    (couchbase_Incr (("/" +:+ serverId g) +:+ "/r") 1 1
       (couchbase_Incr (("/" +:+ h) +:+ "/r") 1 1 st).1).1.
Proof.
  unfold recordBlobAccess.
  destruct (couchbase_Incr (("/" +:+ h) +:+ "/r") 1 1 st) as [st1 e1].
  simpl. by destruct (couchbase_Incr _ 1 1 st1).
Qed.

Lemma counter_key_inj (a b : string) :
  ("/" +:+ a) +:+ "/r" = ("/" +:+ b) +:+ "/r" → a = b.
Proof.
  intros H. apply string_app_inj_r in H. by injection H.
Qed.

(** X4. [recordBlobAccess] touches the counter of the blob and the
    counter of the local node, and no other key.  When the blob id is
    not the node id, each counter that is absent or a number goes up by
    one (an absent one counts as 0) as long as it stays below 2^64; one
    that is not a number keeps its body, and does not keep the other
    from being counted.  When the blob id is the node id, the two keys
    are the same and the counter goes up by two. *)
Theorem recordBlobAccess_counts_one_access g h (st : Store) :
  let kb := ("/" +:+ h) +:+ "/r" in
  let kn := ("/" +:+ serverId g) +:+ "/r" in
  let st' := recordBlobAccess g h st in
  (∀ key, key ≠ kb → key ≠ kn → st' !! key = st !! key) ∧
  (h ≠ serverId g →
     (∀ n, counterAt st kb = Some n → (n + 1 < 2 ^ 64)%N →
           counterAt st' kb = Some (n + 1)%N) ∧
     (∀ n, counterAt st kn = Some n → (n + 1 < 2 ^ 64)%N →
           counterAt st' kn = Some (n + 1)%N) ∧
     (counterAt st kb = None → st' !! kb = st !! kb) ∧
     (counterAt st kn = None → st' !! kn = st !! kn)) ∧
  (h = serverId g →
     ∀ n, counterAt st kb = Some n → (n + 2 < 2 ^ 64)%N →
          counterAt st' kb = Some (n + 2)%N).
Proof.
  intros kb kn st'. subst st'. rewrite recordBlobAccess_unfold.
  fold kb kn. split; [|split].
  - intros key Hb Hn. by rewrite !couchbase_Incr_other.
  - intros Hne.
    assert (Hk : kb ≠ kn).
    { intros Heq. by apply Hne, counter_key_inj. }
    split; [|split; [|split]].
    + intros n Hn Hlt. unfold counterAt.
      rewrite couchbase_Incr_other by done.
      by apply couchbase_Incr_counts.
    + intros n Hn Hlt. apply couchbase_Incr_counts; [|done].
      unfold counterAt. by rewrite couchbase_Incr_other.
    + intros Hn. rewrite couchbase_Incr_other by done.
      by rewrite couchbase_Incr_corrupt.
    + intros Hn. rewrite couchbase_Incr_corrupt.
      * by rewrite couchbase_Incr_other.
      * unfold counterAt. by rewrite couchbase_Incr_other.
  - intros Heq n Hn Hlt.
    assert (Hk : kn = kb) by (subst kn kb; by rewrite Heq).
    rewrite Hk.
    replace (n + 2)%N with (n + 1 + 1)%N by lia.
    apply couchbase_Incr_counts; [|lia].
    apply couchbase_Incr_counts; [done|lia].
Qed.

(** ** The other two enforcement entry points *)

Section MoreNodeProperties.

Context {StorageNode : Type}.
Variable name : StorageNode → string.
Variable candidatesFor :
  list StorageNode → string → list StorageNode → list StorageNode.

Implicit Types (w : World StorageNode) (e : Env StorageNode).
Implicit Types (c : internodeTask StorageNode) (nl : list StorageNode).

(** *** increaseReplicaCount *)

Lemma foldl_queueBlobAcquire o prev (l : list StorageNode) : ∀ w,
  foldl (λ w n, queueBlobAcquire n o prev w) w l =
    set_queue w (queue w ++ (acquireTask o prev <$> l)).
Proof.
  induction l as [|n l IH]; intros w; csimpl.
  - by rewrite app_nil_r, set_queue_same.
  - rewrite IH. unfold queueBlobAcquire, set_queue. simpl.
    by rewrite <- app_assoc.
Qed.

(** X11. [increaseReplicaCount(oid, length, by)] when the nodes can be
    listed.  For [by] not negative it appends to the queue one acquire
    task without a previous owner for each of the first [by] candidates,
    in their order (for all of them, if there are fewer), and reports
    no error; bucket and trace are untouched.  For a negative [by] it
    panics in the slice expression, also when there is no candidate. *)
Theorem increaseReplicaCount_asks_first_candidates e o len by_ w nl :
  findAllNodes e = Some nl →
  let run := increaseReplicaCount candidatesFor e o len by_ w in
  let chosen := take (Z.to_nat by_) (candidatesFor nl o []) in
  (0 ≤ by_ →
     run = Ret (set_queue w (queue w ++ (acquireTask o "" <$> chosen)),
                None) ∧
     Z.of_nat (length chosen)
       = Z.min by_ (Z.of_nat (length (candidatesFor nl o [])))) ∧
  (by_ < 0 → run = Panic "slice bounds out of range").
Proof.
  intros Hnl run chosen. subst run. unfold increaseReplicaCount.
  rewrite Hnl. cbv zeta. split.
  - intros Hby. split.
    + destruct (Z.of_nat (length (candidatesFor nl o [])) >? by_) eqn:Hgt.
      * unfold slice_to. rewrite (proj2 (Z.ltb_ge _ _) Hby). simpl.
        by rewrite foldl_queueBlobAcquire.
      * rewrite Z.gtb_ltb in Hgt. apply Z.ltb_ge in Hgt. simpl.
        rewrite foldl_queueBlobAcquire. subst chosen.
        rewrite take_ge by lia. done.
    + subst chosen. rewrite length_take. lia.
  - intros Hby.
    rewrite (proj2 (Z.gtb_lt _ _)) by lia.
    unfold slice_to. by rewrite (proj2 (Z.ltb_lt _ _) Hby).
Qed.

(** *** pruneBlob *)

Lemma nodesByName_fold nl : ∀ (acc : gmap string StorageNode) k sn,
  foldl (λ nm n, <[name n := n]> nm) acc nl !! k = Some sn →
  (sn ∈ nl ∧ name sn = k) ∨ acc !! k = Some sn.
Proof.
  induction nl as [|n nl IH]; intros acc k sn; simpl; [by right|].
  intros H. apply IH in H as [[Hin Hk]|H].
  - left. split; [by right|done].
  - destruct (decide (name n = k)) as [<-|Hne].
    + rewrite lookup_insert_eq in H. injection H as <-.
      left. split; [by left|done].
    + rewrite lookup_insert_ne in H by done. by right.
Qed.

Lemma nodesByName_lookup nl k sn :
  nodesByName name nl !! k = Some sn → sn ∈ nl ∧ name sn = k.
Proof.
  intros H. apply nodesByName_fold in H as [H|H]; [done|].
  by rewrite lookup_empty in H.
Qed.

Lemma omap_length_le {A B} (f : A → option B) (l : list A) :
  (length (omap f l) ≤ length l)%nat.
Proof.
  induction l as [|x l IH]; csimpl; [done|].
  destruct (f x); simpl; lia.
Qed.

(** X12. [pruneBlob] only appends to the queue: bucket and trace are
    as before.  It appends at most [n - max] tasks, for [n] owners and
    the maximum [max], and each of them is a removal of this blob at a
    node of the node list whose name is a key of the owner map.  With
    [n ≤ max] nothing changes at all. *)
Theorem pruneBlob_only_asks_known_owners g o nodemap nl w :
  let max := MaxReplicas (globalConfig g) in
  let n := Z.of_nat (length nodemap) in
  let w' := pruneBlob name g o nodemap nl w in
  store w' = store w ∧
  trace w' = trace w ∧
  (∃ added,
     queue w' = queue w ++ added ∧
     Z.of_nat (length added) ≤ Z.max 0 (n - max) ∧
     Forall (λ t, cmd t = removeObjectCmd ∧ oid t = o ∧
                  node t ∈ nl ∧ name (node t) ∈ nodemap.*1) added) ∧
  (n ≤ max → w' = w).
Proof.
  intros max n w'. subst w'. unfold pruneBlob. rewrite pruneLoop_spec.
  fold max n. simpl. split; [done|]. split; [done|]. split.
  - eexists. split; [done|]. split.
    + rewrite length_fmap.
      pose proof (omap_length_le (nodesByName name nl !!.)
                    (take (Z.to_nat (n - max)) nodemap.*1)) as Hle.
      rewrite length_take in Hle. lia.
    + apply Forall_fmap, Forall_forall. intros sn Hsn. simpl.
      apply list_elem_of_omap in Hsn as (k & Hk & Hlook).
      apply nodesByName_lookup in Hlook as [Hin Hname].
      split; [done|]. split; [done|]. split; [done|].
      rewrite Hname. by eapply subseteq_take.
  - intros Hle. replace (Z.to_nat (n - max)) with 0%nat by lia.
    simpl. by rewrite app_nil_r, set_queue_same.
Qed.

(** *** pruneExcessiveReplicas *)

Lemma pruneRows_spec g nl rows : ∀ w,
  Forall (λ r, r.1 ≠ "") rows →
  pruneRows name g rows nl w =
    Ret (foldl (λ w r, pruneBlob name g (str_tail r.1) r.2 nl w) w rows).
Proof.
  induction rows as [|r rows IH]; intros w Hrows; simpl; [done|].
  inversion Hrows as [|? ? Hid Hrest]; subst.
  destruct r as [id nodemap]. simpl in *.
  destruct id as [|ch id]; [done|]. simpl. by apply IH.
Qed.

Lemma prune_fold_spec g nl rows : ∀ w,
  let w' := foldl (λ w r, pruneBlob name g (str_tail r.1) r.2 nl w) w rows in
  store w' = store w ∧ trace w' = trace w ∧
  queue w' =
    queue w ++
      concat ((λ r, queue (pruneBlob name g (str_tail r.1) r.2 nl
                             {| store := ∅; queue := []; trace := [] |}))
              <$> rows).
Proof.
  induction rows as [|r rows IH]; intros w; csimpl.
  - by rewrite app_nil_r.
  - destruct (IH (pruneBlob name g (str_tail r.1) r.2 nl w))
      as (Hs & Ht & Hq).
    rewrite Hs, Ht, Hq. unfold pruneBlob. rewrite !pruneLoop_spec. simpl.
    by rewrite <- app_assoc.
Qed.

(** X13. [pruneExcessiveReplicas].  When the nodes cannot be listed it
    fails before it asks the view.  Otherwise it issues one query to
    the replica-count view: descending, not reduced, with the
    documents, limited to the batch size, not stale, and ending at
    [MaxReplicas + 1] as the [int] addition computes it: the least
    [int] when [MaxReplicas] is the greatest, and the sum otherwise.
    If the query fails so does the call and nothing is enqueued.
    Otherwise, for the rows in order, it enqueues for the
    blob of each row (the id of the row without its first byte) the
    removals of [pruneBlob]: one for each of the first [n - max] owners
    of the row that is a node of the node list. *)
Theorem pruneExcessiveReplicas_queries_once_and_prunes_each_row
    viewDocs e g w :
  let cfg := globalConfig g in
  let params : ViewParams :=
    {[ "descending" := PBool true;
       "reduce" := PBool false;
       "include_docs" := PBool true;
       "limit" := PInt (ReplicationCheckLimit cfg);
       "endkey" := PInt (int_add (MaxReplicas cfg) 1);
       "stale" := PBool false ]} in
  let run := pruneExcessiveReplicas name viewDocs e g w in
  let queried := emit (EvView "cbfs" "repcounts" params) w in
  (findAllNodes e = None → run = Ret (w, Some ErrStore)) ∧
  (∀ nl, findAllNodes e = Some nl →
     (viewDocs "cbfs" "repcounts" params = None →
        run = Ret (queried, Some ErrStore)) ∧
     (∀ rows,
        viewDocs "cbfs" "repcounts" params = Some rows →
        Forall (λ r, r.1 ≠ "") rows →
        ∃ w',
          run = Ret (w', None) ∧
          store w' = store w ∧
          trace w' = trace w ++ [EvView "cbfs" "repcounts" params] ∧
          queue w' =
            queue w ++
              concat
                ((λ r,
                    removalTask (str_tail r.1) <$>
                      omap (nodesByName name nl !!.)
                        (take (Z.to_nat (Z.of_nat (length r.2)
                                         - MaxReplicas cfg))
                           r.2.*1))
                 <$> rows))) ∧
  (minInt ≤ MaxReplicas cfg < maxInt →
     int_add (MaxReplicas cfg) 1 = MaxReplicas cfg + 1) ∧
  (MaxReplicas cfg = maxInt → int_add (MaxReplicas cfg) 1 = minInt).
Proof.
  intros cfg params run queried. subst run. unfold pruneExcessiveReplicas.
  fold cfg params. split; [by intros ->|]. split.
  2:{ split.
      - intros Hrange. unfold int_add.
        apply int_wrap_id. unfold minInt, maxInt in *. lia.
      - by intros ->. }
  intros nl ->. fold queried. split.
    + by intros ->.
    + intros rows -> Hrows.
      assert (Hfold :
        let w' := foldl (λ w r, pruneBlob name g (str_tail r.1) r.2 nl w)
                    queried rows in
        store w' = store w ∧
        trace w' = trace w ++ [EvView "cbfs" "repcounts" params] ∧
        queue w' =
          queue w ++
            concat
              ((λ r,
                  removalTask (str_tail r.1) <$>
                    omap (nodesByName name nl !!.)
                      (take (Z.to_nat (Z.of_nat (length r.2)
                                       - MaxReplicas cfg))
                         r.2.*1))
               <$> rows)).
      { destruct (prune_fold_spec g nl rows queried) as (Hs & Ht & Hq).
        cbv zeta. rewrite Hs, Ht, Hq. split; [done|]. split; [done|].
        simpl. f_equal. f_equal. apply list_fmap_ext. intros i r _.
        unfold pruneBlob. by rewrite pruneLoop_spec. }
      destruct rows as [|r rows].
      * simpl. exists queried. split; [done|]. apply Hfold.
      * cbn [length Nat.eqb]. rewrite (pruneRows_spec g nl _ _ Hrows).
        simpl. eexists. split; [done|]. apply Hfold.
Qed.

End MoreNodeProperties.

(** ** The blob transfer orchestrator *)

Section FetchProperties.

Variable json_Unmarshal : list byte → option BlobOwnership.
Variable mustEncode : BlobOwnership → list byte.
Context {StorageNode : Type}.

Implicit Types (w : World StorageNode) (e : Env StorageNode).

(** What an affirmation that is not forced leaves in the bucket, on
    every record on which it does not panic. *)
Lemma recordBlobOwnership_unforced_effect g h l now (st : Store) :
  CodecLaws json_Unmarshal mustEncode →
  let k := "/" +:+ h in
  ¬ (∃ b, json_Unmarshal (body_of st k) = Some b ∧ Nodes b = None) →
  ∃ (st' : Store) b',
    recordBlobOwnership json_Unmarshal mustEncode g h l false now st
      = Ret (st', None) ∧
    (∀ key, key ≠ k → st' !! key = st !! key) ∧
    getBlobOwnership json_Unmarshal h st' = (b', None) ∧
    is_Some (gomap_get (Nodes b') (serverId g)) ∧
    (∀ b m, json_Unmarshal (body_of st k) = Some b → Nodes b = Some m →
       (∀ other, other ≠ serverId g →
          gomap_get (Nodes b') other = m !! other) ∧
       (is_Some (m !! serverId g) → st' = st) ∧
       (m !! serverId g = None →
          gomap_get (Nodes b') (serverId g) = Some now ∧
          OID b' = h ∧ Length b' = l ∧ Type_ b' = "blob")) ∧
    (json_Unmarshal (body_of st k) = None →
       b' = {| OID := h; Length := l;
               Nodes := Some {[ serverId g := now ]}; Type_ := "blob" |}).
Proof.
  intros [He Hr] k Hnot. subst k.
  destruct (json_Unmarshal (body_of st ("/" +:+ h))) as [b|] eqn:Hdec.
  - destruct (Nodes b) as [m|] eqn:Hm.
    2:{ exfalso. apply Hnot. by exists b. }
    destruct (m !! serverId g) as [t|] eqn:Hself.
    + exists st, b. split.
      { apply (recordBlobOwnership_noop json_Unmarshal mustEncode
                 g h l now st b t); [done|]. by rewrite Hm. }
      split; [done|].
      assert (Hget : getBlobOwnership json_Unmarshal h st = (b, None)).
      { unfold getBlobOwnership. unfold body_of in Hdec.
        destruct (st !! ("/" +:+ h)) as [body|]; simpl in Hdec;
          [by rewrite Hdec|by rewrite He in Hdec]. }
      split; [done|]. split; [rewrite Hm; simpl; by rewrite Hself|].
      split; [|done].
      intros b0 m0 [= <-] Hm0. rewrite Hm in Hm0. injection Hm0 as <-.
      split; [by intros; rewrite Hm|]. split; [done|].
      intros Hnone. by rewrite Hself in Hnone.
    + eexists _, _. split.
      { apply (recordBlobOwnership_update json_Unmarshal mustEncode
                 g h l false now st b m); [done|done|by left]. }
      split; [by intros key Hkey; rewrite lookup_insert_ne|].
      split; [unfold getBlobOwnership; by rewrite lookup_insert_eq, Hr|].
      simpl. split; [by rewrite lookup_insert_eq|]. split; [|done].
      intros b0 m0 [= <-] Hm0. rewrite Hm in Hm0. injection Hm0 as <-.
      split; [by intros other Ho; rewrite lookup_insert_ne|].
      split; [by rewrite Hself; intros [? ?]|].
      intros _. by rewrite lookup_insert_eq.
  - eexists _, _. split.
    { by apply (recordBlobOwnership_fresh json_Unmarshal mustEncode). }
    split; [by intros key Hkey; rewrite lookup_insert_ne|].
    split; [unfold getBlobOwnership; by rewrite lookup_insert_eq, Hr|].
    simpl. split; [by rewrite lookup_singleton_eq|]. split; [done|done].
Qed.

(** What [removeBlobOwnershipRecord] leaves in the bucket, as read back
    by [getBlobOwnership]. *)
Lemma removeBlobOwnershipRecord_effect g h nd (st : Store) :
  CodecLaws json_Unmarshal mustEncode →
  let k := "/" +:+ h in
  ∃ (st' : Store) cnt,
    removeBlobOwnershipRecord json_Unmarshal mustEncode g h nd st
      = Ret (st', cnt) ∧
    (∀ key, key ≠ k → key ≠ k +:+ "/r" → st' !! key = st !! key) ∧
    ((getBlobOwnership json_Unmarshal h st).2 ≠ None → st' = st) ∧
    (∀ b, getBlobOwnership json_Unmarshal h st = (b, None) →
       let b' := with_Nodes b (gomap_delete (Nodes b) nd) in
       gomap_get (Nodes b') nd = None ∧
       (∀ other, other ≠ nd →
          gomap_get (Nodes b') other = gomap_get (Nodes b) other) ∧
       if (gomap_len (Nodes b') =? 0) && bool_decide (nd = serverId g)
       then st' !! k = None
       else getBlobOwnership json_Unmarshal h st' = (b', None)).
Proof.
  intros [He Hr] k. subst k.
  assert (Hkr : ("/" +:+ h) +:+ "/r" ≠ "/" +:+ h) by apply counter_key_ne.
  destruct (removeBlobOwnershipRecord_cases json_Unmarshal mustEncode
              g h nd st) as [[Hbody Hrun]|(b & Hne & Hdec & Hrun)].
  - exists st, (-1). split; [exact Hrun|]. split; [done|]. split; [done|].
    intros b. unfold getBlobOwnership. cbv zeta in Hbody.
    unfold body_of in Hbody.
    destruct (st !! ("/" +:+ h)) as [body|]; [|done]. simpl in Hbody.
    destruct Hbody as [->|Hbody]; [by rewrite He|by rewrite Hbody].
  - cbv zeta in Hrun. eexists _, _. split; [exact Hrun|].
    assert (Hget : getBlobOwnership json_Unmarshal h st = (b, None)).
    { unfold getBlobOwnership.
      by rewrite (body_of_nonempty _ _ Hne), Hdec. }
    split; [|split].
    + intros key Hk1 Hk2.
      destruct (_ =? 0); [destruct (bool_decide _)|];
        by rewrite ?lookup_delete_ne, ?lookup_insert_ne by congruence.
    + by rewrite Hget.
    + intros b0. rewrite Hget. intros [= <-]. cbv zeta.
      split; [destruct b; simpl; apply gomap_get_delete|].
      split; [intros other Ho; destruct b; simpl;
              by apply gomap_get_delete_ne|].
      destruct (_ =? 0); [destruct (bool_decide _)|]; simpl.
      * by rewrite lookup_delete_ne, lookup_delete_eq.
      * unfold getBlobOwnership.
        by rewrite lookup_delete_ne, lookup_insert_eq, Hr.
      * unfold getBlobOwnership. by rewrite lookup_insert_eq, Hr.
Qed.

(** C7 (failing input). [performFetch(oid, prevNode)] when the blob
    exists locally: on a stored record that decodes without a [nodes]
    map the call panics in the affirmation (the defect of C4 and C10),
    where it should affirm local ownership and return.  On every other
    record it returns without a request to a peer and without a task,
    and the record read back afterwards names the local node: a node
    that was an owner keeps its timestamp and the bucket is as before
    (the affirmation is not forced); otherwise the local node has the
    time of the call and the record the id and the size of the blob;
    the other owners of a record that decoded are kept.  When the blob
    does not exist locally, one pull is requested from a peer.  After a
    successful pull with a previous owner, a removal task is enqueued at
    that node when [findNode] resolves it; otherwise the previous owner
    is struck from the ownership record directly: a record that could
    be read is left without it and with its other owners (or is deleted,
    when nobody is left and the previous owner is the local node), an
    unreadable one is left alone, and only the record and the counter
    of the blob can change.  After a failed pull nothing follows: the
    bucket and the queue are as before and no second pull is made. *)
Theorem performFetch_affirms_or_pulls_once e g o prev w :
  CodecLaws json_Unmarshal mustEncode →
  let run := performFetch json_Unmarshal mustEncode e g o prev w in
  let k := "/" +:+ o in
  let pulled : World StorageNode :=
    {| store := store w; queue := queue w;
       trace := trace w ++ [EvRemotePull o 100] |} in
  (∀ size, os_Stat e o = Some size →
     ((∃ b, json_Unmarshal (body_of (store w) k) = Some b ∧
            Nodes b = None) →
        run = Panic "assignment to entry in nil map") ∧
     (¬ (∃ b, json_Unmarshal (body_of (store w) k) = Some b ∧
              Nodes b = None) →
        ∃ (st' : Store) b',
          run = Ret {| store := st'; queue := queue w; trace := trace w |} ∧
          (∀ key, key ≠ k → st' !! key = store w !! key) ∧
          getBlobOwnership json_Unmarshal o st' = (b', None) ∧
          is_Some (gomap_get (Nodes b') (serverId g)) ∧
          (∀ b m, json_Unmarshal (body_of (store w) k) = Some b →
             Nodes b = Some m →
             (∀ other, other ≠ serverId g →
                gomap_get (Nodes b') other = m !! other) ∧
             (is_Some (m !! serverId g) → st' = store w) ∧
             (m !! serverId g = None →
                gomap_get (Nodes b') (serverId g) = Some (now e) ∧
                OID b' = o ∧ Length b' = size ∧ Type_ b' = "blob")) ∧
          (json_Unmarshal (body_of (store w) k) = None →
             b' = {| OID := o; Length := size;
                     Nodes := Some {[ serverId g := now e ]};
                     Type_ := "blob" |}))) ∧
  (os_Stat e o = None → getBlobFromRemote e o = (None, 200) →
     (∀ n, prev ≠ "" → findNode e prev = Some n →
        run = Ret {| store := store w;
                     queue := queue w ++ [removalTask o n];
                     trace := trace w ++ [EvRemotePull o 100] |}) ∧
     (prev ≠ "" → findNode e prev = None →
        ∃ st' : Store,
          run = Ret {| store := st'; queue := queue w;
                       trace := trace w ++ [EvRemotePull o 100] |} ∧
          (∀ key, key ≠ k → key ≠ k +:+ "/r" →
                  st' !! key = store w !! key) ∧
          ((getBlobOwnership json_Unmarshal o (store w)).2 ≠ None →
             st' = store w) ∧
          (∀ b, getBlobOwnership json_Unmarshal o (store w) = (b, None) →
             let b' := with_Nodes b (gomap_delete (Nodes b) prev) in
             gomap_get (Nodes b') prev = None ∧
             (∀ other, other ≠ prev →
                gomap_get (Nodes b') other = gomap_get (Nodes b) other) ∧
             if (gomap_len (Nodes b') =? 0)
                && bool_decide (prev = serverId g)
             then st' !! k = None
             else getBlobOwnership json_Unmarshal o st' = (b', None))) ∧
     (prev = "" → run = Ret pulled)) ∧
  (os_Stat e o = None →
     (getBlobFromRemote e o).1 ≠ None ∨ (getBlobFromRemote e o).2 ≠ 200 →
     run = Ret pulled).
Proof.
  intros Hlaws run k pulled. subst run k. unfold performFetch.
  split; [|split].
  - intros size ->. split.
    + intros (b & Hdec & Hnil).
      unfold recordBlobOwnership, mc_CAS.
      by rewrite (recordBlobOwnership_cas_nil json_Unmarshal mustEncode
                    g o size false (now e) _ b Hdec Hnil).
    + intros Hnot.
      destruct (recordBlobOwnership_unforced_effect g o size (now e)
                  (store w) Hlaws Hnot)
        as (st' & b' & Hrun & Hframe & Hget & Hself & Hsome & Hnone).
      exists st', b'. rewrite Hrun. simpl. done.
  - intros -> ->. simpl. split; [|split].
    + intros n Hprev ->. by rewrite bool_decide_eq_true_2.
    + intros Hprev ->. rewrite bool_decide_eq_true_2 by done.
      destruct (removeBlobOwnershipRecord_effect g o prev (store w) Hlaws)
        as (st' & cnt & Hrun & Hframe & Hquit & Heff).
      exists st'. simpl. rewrite Hrun. simpl. done.
    + intros ->. by rewrite bool_decide_eq_false_2 by (by intros H).
  - intros -> Hfail.
    destruct (getBlobFromRemote e o) as [err code]. simpl in Hfail.
    destruct Hfail as [Herr|Hcode].
    + by rewrite bool_decide_eq_false_2.
    + rewrite (proj2 (Z.eqb_neq _ _) Hcode). by rewrite andb_false_r.
Qed.

End FetchProperties.

(** ** The worker on known commands *)

Section WorkerProperties.

Variable json_Unmarshal : list byte → option BlobOwnership.
Variable mustEncode : BlobOwnership → list byte.
Context {StorageNode : Type}.
Variable name : StorageNode → string.
Variable zeroNode : StorageNode.

Implicit Types (w : World StorageNode) (e : Env StorageNode).
Implicit Types (c : internodeTask StorageNode) (nl : list StorageNode).

Lemma recordBlobOwnership_not_fatal g h l force now (st : Store) msg :
  recordBlobOwnership json_Unmarshal mustEncode g h l force now st
    ≠ Fatal msg.
Proof.
  unfold recordBlobOwnership, mc_CAS, recordBlobOwnership_cas.
  destruct (json_Unmarshal _) as [b|]; simpl; [|done].
  destruct (_ && _); simpl; [done|].
  by destruct (Nodes b).
Qed.

(** A task with a known command either panics or returns, and leaves
    behind at most one more task, a removal, and only when it was a
    fetch. *)
Lemma runTask_known e g c w :
  knownCommand c →
  (∃ msg, runTask json_Unmarshal mustEncode name e g c w = Panic msg) ∨
  (∃ w' extra,
     runTask json_Unmarshal mustEncode name e g c w = Ret w' ∧
     queue w' = queue w ++ extra ∧
     Forall (λ t, cmd t = removeObjectCmd) extra ∧
     (length extra + 1 ≤ taskCost c)%nat).
Proof.
  intros [Hc|[Hc|Hc]]; unfold runTask, taskCost; rewrite Hc; simpl.
  - right. destruct (deleteBlob e (node c) (oid c)) as [err|].
    + destruct (IsDead e (node c)).
      * destruct (removeBlobOwnershipRecord_returns json_Unmarshal mustEncode
                    g (oid c) (name (node c)) (store w))
          as [[st' cnt] Hret].
        simpl. rewrite Hret. simpl.
        eexists _, []. split; [done|]. simpl. rewrite app_nil_r.
        split; [done|]. split; [done|lia].
      * eexists _, []. split; [done|]. simpl. rewrite app_nil_r.
        split; [done|]. split; [done|lia].
    + eexists _, []. split; [done|]. simpl. rewrite app_nil_r.
      split; [done|]. split; [done|lia].
  - right. destruct (acquireBlob e (node c) (oid c) (prevNode c));
      (eexists _, []; split; [done|]; simpl; rewrite app_nil_r;
       split; [done|]; split; [done|lia]).
  - unfold performFetch. destruct (os_Stat e (oid c)) as [size|].
    + destruct (recordBlobOwnership json_Unmarshal mustEncode g (oid c) size
                  false (now e) (store w)) as [[st' err]|msg|msg] eqn:Hrec.
      * right. simpl. eexists _, []. split; [done|]. simpl.
        rewrite app_nil_r. split; [done|]. split; [done|lia].
      * left. by eexists.
      * by apply recordBlobOwnership_not_fatal in Hrec.
    + right. destruct (getBlobFromRemote e (oid c)) as [err code].
      destruct (bool_decide (err = None) && (code =? 200)).
      2:{ eexists _, []. split; [done|]. simpl. rewrite app_nil_r.
          split; [done|]. split; [done|lia]. }
      destruct (bool_decide (prevNode c ≠ "")).
      2:{ eexists _, []. split; [done|]. simpl. rewrite app_nil_r.
          split; [done|]. split; [done|lia]. }
      destruct (findNode e (prevNode c)) as [n|].
      * eexists _, [_]. split; [done|]. simpl. split; [done|].
        split; [by constructor|lia].
      * destruct (removeBlobOwnershipRecord_returns json_Unmarshal mustEncode
                    g (oid c) (prevNode c) (store w))
          as [[st' cnt] Hret].
        simpl. rewrite Hret. simpl.
        eexists _, []. split; [done|]. simpl. rewrite app_nil_r.
        split; [done|]. split; [done|lia].
Qed.

Lemma taskCost_removal (l : list (internodeTask StorageNode)) :
  Forall (λ t, cmd t = removeObjectCmd) l →
  sum_list_with taskCost l = length l.
Proof.
  induction 1 as [|t l Ht _ IH]; csimpl; [done|].
  rewrite IH. unfold taskCost. by rewrite Ht.
Qed.

Lemma taskCost_bound (l : list (internodeTask StorageNode)) :
  (sum_list_with taskCost l ≤ 2 * length l)%nat.
Proof.
  induction l as [|t l IH]; csimpl; [done|].
  unfold taskCost at 1. destruct (cmd t =? fetchObjectCmd); lia.
Qed.

Lemma worker_known e g fuel : ∀ w,
  Forall knownCommand (queue w) →
  (∀ msg, internodeTaskWorker json_Unmarshal mustEncode name fuel e g w
          ≠ Fatal msg) ∧
  ((sum_list_with taskCost (queue w) ≤ fuel)%nat →
   (∃ w', internodeTaskWorker json_Unmarshal mustEncode name fuel e g w
            = Ret w' ∧ queue w' = []) ∨
   (∃ msg, internodeTaskWorker json_Unmarshal mustEncode name fuel e g w
             = Panic msg)).
Proof.
  induction fuel as [|fuel IH]; intros w Hknown; simpl.
  - split; [done|]. intros Hsum. left. exists w. split; [done|].
    destruct (queue w) as [|c rest]; [done|].
    csimpl in Hsum. unfold taskCost in Hsum at 1.
    destruct (cmd c =? fetchObjectCmd); lia.
  - destruct (queue w) as [|c rest] eqn:Hq.
    { split; [done|]. intros _. left. by exists w. }
    inversion Hknown as [|? ? Hc Hrest]; subst.
    destruct (runTask_known e g c (set_queue w rest) Hc)
      as [[msg Hrun]|(w' & extra & Hrun & Hq' & Hextra & Hcost)];
      rewrite Hrun; simpl.
    { split; [done|]. intros _. right. by eexists. }
    simpl in Hq'.
    assert (Hknown' : Forall knownCommand (queue w')).
    { rewrite Hq'. apply Forall_app. split; [done|].
      eapply Forall_impl; [exact Hextra|]. intros t Ht. by left. }
    destruct (IH w' Hknown') as [Hnf Hdrain]. split; [done|].
    intros Hsum. apply Hdrain. rewrite Hq', sum_list_with_app.
    rewrite (taskCost_removal extra Hextra). csimpl in Hsum. lia.
Qed.

(** X14. A worker whose queue holds tasks with the three known
    commands only never stops the process with the fatal error, however
    long it runs.  Once it has run twice as many tasks as the queue
    held, it has emptied the queue, the removals that fetches enqueue
    included, unless the handling of a task has panicked. *)
Theorem worker_runs_known_commands_to_the_end e g w :
  Forall knownCommand (queue w) →
  (∀ fuel msg,
     internodeTaskWorker json_Unmarshal mustEncode name fuel e g w
       ≠ Fatal msg) ∧
  (∀ fuel, (2 * length (queue w) ≤ fuel)%nat →
     (∃ w', internodeTaskWorker json_Unmarshal mustEncode name fuel e g w
              = Ret w' ∧ queue w' = []) ∨
     (∃ msg, internodeTaskWorker json_Unmarshal mustEncode name fuel e g w
               = Panic msg)).
Proof.
  intros Hknown. split.
  - intros fuel. by apply worker_known.
  - intros fuel Hfuel. apply worker_known; [done|].
    pose proof (taskCost_bound (queue w)). lia.
Qed.

(** X15. A removal task.  When the target deletes its copy, or fails
    to and is not dead, the worker makes the delete request and nothing
    else.  When the request fails and the target is dead, the target is
    struck from the ownership record: the queue is as before, the delete
    request is the only request, only the record and the counter of the
    blob can change, and a record that can be read afterwards does not
    name the target and has every other owner of the record from
    before with its timestamp. *)
Theorem failed_removal_at_dead_node_strips_owner e g c w :
  CodecLaws json_Unmarshal mustEncode →
  cmd c = removeObjectCmd →
  let run := runTask json_Unmarshal mustEncode name e g c w in
  let asked := emit (EvDeleteBlob (node c) (oid c)) w in
  let k := "/" +:+ oid c in
  (deleteBlob e (node c) (oid c) = None ∨ IsDead e (node c) = false →
     run = Ret asked) ∧
  (is_Some (deleteBlob e (node c) (oid c)) → IsDead e (node c) = true →
     ∃ w',
       run = Ret w' ∧
       queue w' = queue w ∧
       trace w' = trace w ++ [EvDeleteBlob (node c) (oid c)] ∧
       (∀ key, key ≠ k → key ≠ k +:+ "/r" →
               store w' !! key = store w !! key) ∧
       (∀ b', getBlobOwnership json_Unmarshal (oid c) (store w')
                = (b', None) →
          gomap_get (Nodes b') (name (node c)) = None ∧
          ∃ b, getBlobOwnership json_Unmarshal (oid c) (store w)
                 = (b, None) ∧
               ∀ other, other ≠ name (node c) →
                 gomap_get (Nodes b') other = gomap_get (Nodes b) other)).
Proof.
  intros [He Hr] Hc run asked k. subst run k. unfold runTask.
  rewrite Hc. simpl. fold asked. split.
  - intros [->| ->]; [done|]. by destruct (deleteBlob _ _ _).
  - intros [err ->] ->.
    assert (Hkr : ("/" +:+ oid c) +:+ "/r" ≠ "/" +:+ oid c)
      by apply counter_key_ne.
    change (store asked) with (store w).
    destruct (removeBlobOwnershipRecord_cases json_Unmarshal mustEncode
                g (oid c) (name (node c)) (store w))
      as [[Hbody Hrun]|(b & Hne & Hdec & Hrun)].
    + rewrite Hrun. simpl. eexists. split; [done|]. simpl.
      split; [done|]. split; [done|]. split; [done|].
      intros b'. unfold getBlobOwnership.
      unfold body_of in Hbody. cbv zeta in Hbody.
      destruct (store w !! ("/" +:+ oid c)) as [body|]; [|done]. simpl in Hbody.
      destruct Hbody as [->|Hbody]; [by rewrite He|by rewrite Hbody].
    + cbv zeta in Hrun. rewrite Hrun. clear Hrun. simpl.
      set (b1 := with_Nodes b (gomap_delete (Nodes b) (name (node c)))).
      eexists. split; [done|]. simpl. split; [done|]. split; [done|].
      assert (Hget : getBlobOwnership json_Unmarshal (oid c) (store w)
                     = (b, None)).
      { unfold getBlobOwnership.
        by rewrite (body_of_nonempty _ _ Hne), Hdec. }
      split.
      * intros key Hk1 Hk2.
        destruct (_ =? 0); [destruct (bool_decide _)|];
          by rewrite ?lookup_delete_ne, ?lookup_insert_ne by congruence.
      * intros b'. unfold getBlobOwnership at 1.
        assert (Hb1 : gomap_get (Nodes b1) (name (node c)) = None).
        { subst b1. destruct b. simpl. apply gomap_get_delete. }
        assert (Hoth : ∀ other, other ≠ name (node c) →
                  gomap_get (Nodes b1) other = gomap_get (Nodes b) other).
        { intros other Ho. subst b1. destruct b. simpl.
          by apply gomap_get_delete_ne. }
        destruct (_ =? 0); [destruct (bool_decide _)|].
        -- rewrite lookup_delete_ne, lookup_delete_eq by done. done.
        -- rewrite lookup_delete_ne, lookup_insert_eq, Hr by done.
           intros [= <-]. split; [done|]. by exists b.
        -- rewrite lookup_insert_eq, Hr.
           intros [= <-]. split; [done|]. by exists b.
Qed.

(** X16. A fetch task sent with [queueBlobFetch] to an idle worker,
    for a blob that is not on the local disk, with a previous owner that
    [findNode] resolves: after a successful pull the worker goes on to
    the removal task that the fetch has enqueued and asks the previous
    owner to delete its copy.  When that succeeds, the pull and the
    delete are the two requests made, in this order, the queue is empty
    and the bucket is as before. *)
Theorem fetch_task_pulls_then_asks_previous_owner_to_delete
    e g o prev n w fuel :
  queue w = [] →
  os_Stat e o = None →
  getBlobFromRemote e o = (None, 200) →
  prev ≠ "" →
  findNode e prev = Some n →
  deleteBlob e n o = None →
  (2 ≤ fuel)%nat →
  internodeTaskWorker json_Unmarshal mustEncode name fuel e g
    (queueBlobFetch zeroNode o prev w)
  = Ret {| store := store w; queue := [];
           trace := trace w ++ [EvRemotePull o 100; EvDeleteBlob n o] |}.
Proof.
  intros Hq Hstat Hpull Hprev Hfind Hdel Hfuel.
  destruct fuel as [|[|fuel]]; [lia|lia|].
  assert (Hfetch : ∀ w0,
    runTask json_Unmarshal mustEncode name e g
      {| node := zeroNode; cmd := fetchObjectCmd; oid := o;
         prevNode := prev |} w0
    = Ret (queueBlobRemoval n o (emit (EvRemotePull o 100) w0))).
  { intros w0. unfold runTask. cbn [cmd oid prevNode node].
    change (fetchObjectCmd =? removeObjectCmd) with false.
    change (fetchObjectCmd =? acquireObjectCmd) with false.
    change (fetchObjectCmd =? fetchObjectCmd) with true. cbv iota.
    unfold performFetch. rewrite Hstat. cbv zeta. rewrite Hpull. simpl.
    rewrite bool_decide_eq_true_2 by done. by rewrite Hfind. }
  unfold queueBlobFetch. rewrite Hq.
  cbn [internodeTaskWorker queue set_queue app].
  rewrite Hfetch. simpl. unfold runTask. simpl. rewrite Hdel. simpl.
  destruct fuel; simpl; unfold emit, queueBlobRemoval, set_queue; simpl;
    by rewrite <- app_assoc.
Qed.

End WorkerProperties.

(** ** Concrete runs *)

Lemma ref_Encode_nonempty b : ref_Encode b ≠ [].
Proof. apply (encode_nonempty ref_Unmarshal ref_Encode b ref_codec_laws). Qed.

Lemma ref_Unmarshal_Encode b : ref_Unmarshal (ref_Encode b) = Some b.
Proof. apply ref_codec_laws. Qed.

(** Node [B] is removed by node [A] as the only owner: the record stays,
    with no owner. *)
Lemma removeOwner_by_other_node_leaves_empty_record :
  ∃ st' : Store,
    removeBlobOwnershipRecord ref_Unmarshal ref_Encode (localA 0) "h" "B"
      (bucketOf (ownedBy (Some {[ "B" := 0 ]}))) = Ret (st', 0) ∧
    st' !! "/h" = Some (ref_Encode (ownedBy (Some ∅))).
Proof.
  destruct (removeOwner_deletes_iff_local_and_empty
              ref_Unmarshal ref_Encode (localA 0) "h" "B"
              (bucketOf (ownedBy (Some {[ "B" := 0 ]})))
              (ref_Encode (ownedBy (Some {[ "B" := 0 ]})))
              (ownedBy (Some {[ "B" := 0 ]})))
    as (_ & st' & Hrun & _ & _ & Hother).
  - by vm_compute.
  - apply ref_Encode_nonempty.
  - apply ref_Unmarshal_Encode.
  - exists st'. split; [exact Hrun|].
    destruct Hother as [Hrec _]; [by vm_compute|discriminate|].
    exact Hrec.
Defined.

(** After a read of a blob stored by [A], removing [A] empties the owner
    map: the record and the counter of the blob are gone, the counter of
    node [A] is still there. *)
Lemma removeOwner_keeps_node_counter :
  bucketAfterOneRead !! "/h/r" = Some (showCounter 1) ∧
  bucketAfterOneRead !! "/A/r" = Some (showCounter 1) ∧
  ∃ st' : Store,
    removeBlobOwnershipRecord ref_Unmarshal ref_Encode (localA 0) "h" "A"
      bucketAfterOneRead = Ret (st', 0) ∧
    st' !! "/h" = None ∧
    st' !! "/h/r" = None ∧
    st' !! "/A/r" = Some (showCounter 1) ∧
    ¬ (st' !! "/h/r" = None ∧ st' !! "/A/r" = None).
Proof.
  split; [by vm_compute|]. split; [by vm_compute|].
  exists (delete "/h/r" (delete "/h" bucketAfterOneRead)).
  split; [by vm_compute|]. split; [by vm_compute|].
  split; [by vm_compute|]. split; [by vm_compute|].
  intros [_ H]. vm_compute in H. discriminate H.
Qed.

(** The two ways in which an owner count of zero is observed, on the
    bucket of a blob owned by [A] alone. *)
Lemma zero_owners_examples :
  (∃ st' : Store,
     removeBlobOwnershipRecord ref_Unmarshal ref_Encode (localA 0) "h" "A"
       bucketOfA = Ret (st', 0) ∧
     st' !! "/h/r" = None ∧
     st' !! "/A/r" = Some (showCounter 7)) ∧
  (∃ st' : Store,
     maybeRemoveBlobOwnership ref_Unmarshal ref_Encode (localA 0) "h"
       (2 * Hour) bucketOfA
     = Ret (st', None) ∧
     st' !! "/h/r" = None ∧
     st' !! "/A/r" = Some (showCounter 7)).
Proof.
  destruct (zero_owners_deletes_blob_counter ref_Unmarshal ref_Encode
              (localA 0) "h" "A" (2 * Hour)
              bucketOfA)
    as [Hremove Hself].
  split.
  - exists (delete "/h/r" (delete "/h" bucketOfA)).
    assert (Hrun :
      removeBlobOwnershipRecord ref_Unmarshal ref_Encode (localA 0) "h" "A"
        bucketOfA = Ret (delete "/h/r" (delete "/h" bucketOfA), 0))
      by (by vm_compute).
    split; [exact Hrun|].
    destruct (Hremove _ Hrun) as (Hctr & _ & Hnode).
    split; [exact Hctr|].
    change "/A/r" with (("/" +:+ serverId (localA 0)) +:+ "/r").
    rewrite Hnode by (by vm_compute). by vm_compute.
  - destruct (Hself (ref_Encode (ownedBy (Some {[ "A" := 0 ]})))
                (ownedBy (Some {[ "A" := 0 ]})))
      as (st' & Hrun & Hctr & _ & Hnode).
    + by vm_compute.
    + apply ref_Encode_nonempty.
    + apply ref_Unmarshal_Encode.
    + by vm_compute.
    + by vm_compute.
    + by vm_compute.
    + exists st'. split; [exact Hrun|]. split; [exact Hctr|].
      change "/A/r" with (("/" +:+ serverId (localA 0)) +:+ "/r").
      rewrite Hnode by (by vm_compute). by vm_compute.
Defined.

(** Self-removal of the only owner, two hours after its affirmation and
    with no minimum: the record and the counter of the blob are deleted,
    the counter of node [A] is not. *)
Lemma removeSelfSafely_keeps_node_counter :
  ∃ st' : Store,
    maybeRemoveBlobOwnership ref_Unmarshal ref_Encode (localA 0) "h"
      (2 * Hour) bucketOfA
    = Ret (st', None) ∧
    st' !! "/h" = None ∧
    st' !! "/h/r" = None ∧
    st' !! "/A/r" = Some (showCounter 7) ∧
    ¬ (st' !! "/h/r" = None ∧ st' !! "/A/r" = None).
Proof.
  exists (delete "/h/r" (delete "/h" bucketOfA)).
  split; [by vm_compute|]. split; [by vm_compute|].
  split; [by vm_compute|]. split; [by vm_compute|].
  intros [_ H]. vm_compute in H. discriminate H.
Qed.

(** The examples of the design: with a minimum of 1 and owners [A] and
    [B] affirmed two hours ago, self-removal by [A] leaves [B]; with [A]
    affirmed ten minutes ago it is too soon; with a minimum of 3 and the
    two owners there are not enough replicas. *)
Lemma removeSelfSafely_examples :
  let tenMinutes := 600 * 1000000000 in
  let old : gomap Time := Some {[ "A" := 0; "B" := 0 ]} in
  let young : gomap Time :=
    Some {[ "A" := 2 * Hour - tenMinutes; "B" := 0 ]} in
  (∃ st' : Store,
     maybeRemoveBlobOwnership ref_Unmarshal ref_Encode (localA 1) "h"
       (2 * Hour) (bucketOf (ownedBy old)) = Ret (st', None) ∧
     st' !! "/h" = Some (ref_Encode (ownedBy (Some {[ "B" := 0 ]})))) ∧
  maybeRemoveBlobOwnership ref_Unmarshal ref_Encode (localA 1) "h"
    (2 * Hour) (bucketOf (ownedBy young))
    = Ret (bucketOf (ownedBy young), Some (ErrNew "too soon")) ∧
  maybeRemoveBlobOwnership ref_Unmarshal ref_Encode (localA 3) "h"
    (2 * Hour) (bucketOf (ownedBy old))
    = Ret (bucketOf (ownedBy old), Some (ErrNew "Insufficient replicas")).
Proof.
  intros tenMinutes old young.
  split; [|split].
  - destruct (removeSelfSafely_guards_then_removes ref_Unmarshal ref_Encode
                (localA 1) "h" (2 * Hour) (bucketOf (ownedBy old))
                (ref_Encode (ownedBy old)) (ownedBy old))
      as (_ & _ & Hpass).
    + by vm_compute.
    + apply ref_Encode_nonempty.
    + apply ref_Unmarshal_Encode.
    + destruct Hpass as (_ & st' & Hrun & _ & Hkept);
        [by vm_compute|by vm_compute|].
      exists st'. split; [exact Hrun|].
      destruct Hkept as [Hrec _]; [by vm_compute|].
      exact Hrec.
  - destruct (removeSelfSafely_guards_then_removes ref_Unmarshal ref_Encode
                (localA 1) "h" (2 * Hour) (bucketOf (ownedBy young))
                (ref_Encode (ownedBy young)) (ownedBy young))
      as (Hsoon & _ & _).
    + by vm_compute.
    + apply ref_Encode_nonempty.
    + apply ref_Unmarshal_Encode.
    + apply Hsoon. by vm_compute.
  - destruct (removeSelfSafely_guards_then_removes ref_Unmarshal ref_Encode
                (localA 3) "h" (2 * Hour) (bucketOf (ownedBy old))
                (ref_Encode (ownedBy old)) (ownedBy old))
      as (_ & Hmin & _).
    + by vm_compute.
    + apply ref_Encode_nonempty.
    + apply ref_Unmarshal_Encode.
    + apply Hmin; [by vm_compute|left; by vm_compute].
Defined.

(** A stored record without a [nodes] map makes the call panic. *)
Lemma recordAffirmation_panic_example :
  recordBlobOwnership ref_Unmarshal ref_Encode (localA 0) "h" 10 false
    (2 * Hour) (bucketOf (ownedBy None))
  = Panic "assignment to entry in nil map".
Proof.
  apply (recordAffirmation_panics_without_nodes_map ref_Unmarshal ref_Encode
           (localA 0) "h" 10 false (2 * Hour) (bucketOf (ownedBy None))
           (ref_Encode (ownedBy None)) (ownedBy None)).
  - by vm_compute.
  - apply ref_Unmarshal_Encode.
  - reflexivity.
Defined.

(** The closure on the encoding of a record without a [nodes] map, and
    on the empty body. *)
Lemma affirmation_closure_examples :
  recordBlobOwnership_cas ref_Unmarshal ref_Encode (localA 0) "h" 10 true
    (2 * Hour) (ref_Encode (ownedBy None)) ()
  = Panic "assignment to entry in nil map" ∧
  returns
    (recordBlobOwnership_cas ref_Unmarshal ref_Encode (localA 0) "h" 10 true
       (2 * Hour) [] ()).
Proof.
  split.
  - apply (affirmation_closure_total_except_nil_map ref_Unmarshal ref_Encode
             (localA 0) "h" 10 true (2 * Hour) (ref_Encode (ownedBy None))).
    exists (ownedBy None). split; [apply ref_Unmarshal_Encode|reflexivity].
  - destruct (affirmation_closure_total_except_nil_map ref_Unmarshal ref_Encode
                (localA 0) "h" 10 true (2 * Hour) []) as [_ Hret].
    destruct Hret as [Hquit|(r & Hstore & _)].
    + intros (b & Hdec & _). vm_compute in Hdec. discriminate Hdec.
    + by eexists.
    + by eexists.
Defined.

(** Three nodes affirm the blob; [B] commits before [A]. *)
Lemma affirmations_converge_example :
  ∃ (st' : Store) b,
    affirmAll ref_Unmarshal ref_Encode (configWith 1 3) "h"
      threeAffirmationsSwapped ∅ = Ret st' ∧
    getBlobOwnership ref_Unmarshal "h" st' = (b, None) ∧
    gomap_keys (Nodes b) = {[ "A"; "B"; "C" ]}.
Proof.
  destruct (affirmations_converge_to_union ref_Unmarshal ref_Encode
              (configWith 1 3) "h" threeAffirmations threeAffirmationsSwapped ∅)
    as (st' & b & Hrun & Hget & Hkeys).
  - apply ref_codec_laws.
  - reflexivity.
  - discriminate.
  - apply perm_swap.
  - exists st', b. split; [exact Hrun|]. split; [exact Hget|].
    rewrite Hkeys. by vm_compute.
Defined.

(** Maximum 3 and five owners yielded in the order a, b, c, d, e, all of
    them known nodes: the removals go to [a] and [b], the first two, and
    not to the two that come after the first three. *)
Lemma pruneBlob_removes_first_not_last :
  let g := localA 1 in
  let tasks := queue (pruneBlob id g "h" fiveOwners fiveNodes emptyWorld) in
  tasks = [removalTask "h" "a"; removalTask "h" "b"] ∧
  tasks ≠ (removalTask "h" <$>
             omap (nodesByName id fiveNodes !!.) (drop 3 fiveOwners.*1)) ∧
  "a" ∈ take 3 fiveOwners.*1 ∧
  removalTask "h" "a" ∈ tasks.
Proof.
  intros g tasks.
  assert (Htasks : tasks = [removalTask "h" "a"; removalTask "h" "b"])
    by (by vm_compute).
  split; [exact Htasks|]. split; [|split].
  - rewrite Htasks. vm_compute. discriminate.
  - vm_compute. apply list_elem_of_here.
  - rewrite Htasks. apply list_elem_of_here.
Qed.

(** The same call, read through the theorem: exactly two tasks. *)
Lemma pruneBlob_five_owners_max_three :
  let w' := pruneBlob id (localA 1) "h" fiveOwners fiveNodes emptyWorld in
  queue w' = [removalTask "h" "a"; removalTask "h" "b"] ∧
  length (queue w') = 2%nat.
Proof.
  destruct (pruneBlob_drops_first_excess_owners id (localA 1) "h"
              fiveOwners fiveNodes emptyWorld)
    as (Hq & _ & _ & _ & Hcounts).
  - by vm_compute.
  - destruct Hcounts as (_ & _ & Hcount); [by vm_compute|].
    split.
    + rewrite Hq. by vm_compute.
    + assert (Hall : Forall (λ k, is_Some (nodesByName id fiveNodes !! k))
                       fiveOwners.*1).
      { apply (bool_decide_unpack _). by vm_compute. }
      specialize (Hcount Hall). vm_compute in Hcount.
      vm_compute. congruence.
Defined.

(** The blob is on the local disk.  On a record without a [nodes] map
    the fetch panics; on the empty bucket it writes the record, with [A]
    as owner at the time of the call, and asks nobody.  The blob is not
    on the disk: after the pull [B] is asked to delete, or, when [B] is
    not known, struck from the record; after a failed pull nothing
    follows. *)
Lemma performFetch_examples :
  performFetch ref_Unmarshal ref_Encode envLocal (localA 1) "h" "B"
    {| store := bucketOf (ownedBy None); queue := []; trace := [] |}
  = Panic "assignment to entry in nil map" ∧
  (∃ (st' : Store) b',
     performFetch ref_Unmarshal ref_Encode envLocal (localA 1) "h" "B"
       emptyWorld
     = Ret {| store := st'; queue := []; trace := [] |} ∧
     getBlobOwnership ref_Unmarshal "h" st' = (b', None) ∧
     b' = ownedBy (Some {[ "A" := 2 * Hour ]})) ∧
  performFetch ref_Unmarshal ref_Encode (envWith (None, 200)) (localA 1)
    "h" "B" emptyWorld
  = Ret {| store := ∅; queue := [removalTask "h" "B"];
           trace := [EvRemotePull "h" 100] |} ∧
  (∃ st' : Store,
     performFetch ref_Unmarshal ref_Encode envDead (localA 1) "h" "B"
       {| store := bucketOfAB; queue := []; trace := [] |}
     = Ret {| store := st'; queue := [];
              trace := [EvRemotePull "h" 100] |} ∧
     getBlobOwnership ref_Unmarshal "h" st'
     = (ownedBy (Some {[ "A" := 0 ]}), None)) ∧
  performFetch ref_Unmarshal ref_Encode (envWith (None, 404)) (localA 1)
    "h" "B" emptyWorld
  = Ret {| store := ∅; queue := []; trace := [EvRemotePull "h" 100] |}.
Proof.
  split; [|split; [|split; [|split]]].
  - destruct (performFetch_affirms_or_pulls_once ref_Unmarshal ref_Encode
                envLocal (localA 1) "h" "B"
                {| store := bucketOf (ownedBy None); queue := [];
                   trace := [] |} ref_codec_laws) as (Hlocal & _ & _).
    destruct (Hlocal 10 eq_refl) as [Hpanic _]. apply Hpanic.
    exists (ownedBy None). split; [|done].
    change (body_of _ _) with (ref_Encode (ownedBy None)).
    apply ref_Unmarshal_Encode.
  - destruct (performFetch_affirms_or_pulls_once ref_Unmarshal ref_Encode
                envLocal (localA 1) "h" "B" emptyWorld ref_codec_laws)
      as (Hlocal & _ & _).
    destruct (Hlocal 10 eq_refl) as [_ Hreturns].
    destruct Hreturns as (st' & b' & Hrun & _ & Hget & _ & _ & Hfresh).
    + intros (b & Hb & _). by vm_compute in Hb.
    + exists st', b'. split; [exact Hrun|]. split; [exact Hget|].
      apply Hfresh. by vm_compute.
  - destruct (performFetch_affirms_or_pulls_once ref_Unmarshal ref_Encode
                (envWith (None, 200)) (localA 1) "h" "B" emptyWorld
                ref_codec_laws) as (_ & Hpull & _).
    destruct (Hpull eq_refl eq_refl) as (Hknown & _ & _).
    apply (Hknown "B"); [discriminate|reflexivity].
  - destruct (performFetch_affirms_or_pulls_once ref_Unmarshal ref_Encode
                envDead (localA 1) "h" "B"
                {| store := bucketOfAB; queue := []; trace := [] |}
                ref_codec_laws) as (_ & Hpull & _).
    destruct (Hpull eq_refl eq_refl) as (_ & Hunknown & _).
    destruct Hunknown as (st' & Hrun & _ & _ & Heffect);
      [discriminate|reflexivity|].
    exists st'. split; [exact Hrun|].
    destruct (Heffect (ownedBy (Some {[ "A" := 0; "B" := 0 ]})))
      as (_ & _ & Hafter); [by vm_compute|].
    etransitivity; [exact Hafter|]. by vm_compute.
  - destruct (performFetch_affirms_or_pulls_once ref_Unmarshal ref_Encode
                (envWith (None, 404)) (localA 1) "h" "B" emptyWorld
                ref_codec_laws) as (_ & _ & Hfail).
    apply Hfail; [reflexivity|]. right. discriminate.
Defined.

(** Minimum 3 and two nodes: the view is asked for the keys 1 to 1; the
    rows ["/x"] and ["/y"] lead to two acquire tasks without a previous
    owner. *)
Lemma ensureMinimumReplicaCount_example :
  ∃ w',
    ensureMinimumReplicaCountTask rankInOrder lookupByName
      (envWith (None, 200)) (localA 3) emptyWorld = Ret (w', None) ∧
    trace w' =
      [EvSleep 5; EvSleep 5;
       EvView "cbfs" "repcounts"
         {[ "reduce" := PBool false; "limit" := PInt 100;
            "startkey" := PInt 1; "endkey" := PInt 1;
            "stale" := PBool false ]}] ∧
    queue w' = [acquireTask "x" "" "n1"; acquireTask "y" "" "n1"].
Proof.
  destruct (ensureMinimumReplicaCount_queries_range_and_salvages
              rankInOrder lookupByName (envWith (None, 200)) (localA 3)
              emptyWorld ["n1"; "n2"])
    as (Htrace & _ & _ & _ & Hrows).
  - by vm_compute.
  - reflexivity.
  - destruct (Hrows ["/x"; "/y"]) as (w' & Hrun & _ & Htr & _ & Hqueue).
    + reflexivity.
    + repeat constructor; discriminate.
    + exists w'. split; [exact Hrun|]. split.
      * rewrite Htr, Htrace. reflexivity.
      * rewrite Hqueue. reflexivity.
Defined.

(** The least [int] as minimum and two nodes: the view is asked for
    the keys from 1 to the greatest [int], and both rows are salvaged. *)
Lemma ensureMinimumReplicaCount_wraps_example :
  (∃ w',
     ensureMinimumReplicaCountTask rankInOrder lookupByName
       (envWith (None, 200)) (localA minInt) emptyWorld = Ret (w', None) ∧
     trace w' =
       [EvSleep 5; EvSleep 5;
        EvView "cbfs" "repcounts"
          {[ "reduce" := PBool false; "limit" := PInt 100;
             "startkey" := PInt 1; "endkey" := PInt 9223372036854775807;
             "stale" := PBool false ]}] ∧
     queue w' = [acquireTask "x" "" "n1"; acquireTask "y" "" "n1"]) ∧
  9223372036854775807
    ≠ Z.min (-9223372036854775808 - 1) (Z.of_nat (length ["n1"; "n2"]) - 1).
Proof.
  destruct (ensureMinimumReplicaCount_wraps_at_least_int
              rankInOrder lookupByName (envWith (None, 200)) (localA minInt)
              emptyWorld ["n1"; "n2"])
    as (Hne & Htrace & _ & Hrows).
  - reflexivity.
  - reflexivity.
  - split; [|exact Hne].
    destruct (Hrows ["/x"; "/y"]) as (w' & Hrun & Htr & Hqueue).
    + reflexivity.
    + repeat constructor; discriminate.
    + exists w'. split; [exact Hrun|]. split.
      * rewrite Htr, Htrace. reflexivity.
      * rewrite Hqueue. reflexivity.
Defined.

(** A task with command 3 is fatal, also as the first of two tasks. *)
Lemma unknown_command_example :
  let bad : internodeTask string :=
    {| node := "B"; cmd := 3; oid := "h"; prevNode := "" |} in
  let w : World string :=
    {| store := ∅; queue := [bad; removalTask "h" "B"]; trace := [] |} in
  internodeTaskWorker ref_Unmarshal ref_Encode id 5 (envWith (None, 200))
    (localA 1) w
  = Fatal "Unhandled worker task".
Proof.
  intros bad w.
  destruct (unknown_command_terminates_process ref_Unmarshal ref_Encode id
              (envWith (None, 200)) (localA 1) bad w 4 [removalTask "h" "B"])
    as [_ Hworker].
  - discriminate.
  - discriminate.
  - discriminate.
  - destruct (Hworker eq_refl) as [Hfatal _]. exact Hfatal.
Defined.

(** Two callers race from the absent record: both read it, [A] stores,
    the store of [B] is refused, [B] reads again and stores.  The final
    record names both. *)
Lemma race_with_a_conflict :
  let step := race_step ref_Unmarshal ref_Encode (configWith 1 3) "h" in
  let final : Cell * list (Affirmation * Phase) :=
    ({| cell_body := ref_Encode recordAB; cell_version := 2 |},
     [(affA, Finished); (affB, Finished)]) in
  nsteps step 6 (race_start [affA; affB]) final ∧
  race_done final ∧
  owners_of ref_Unmarshal (cell_body final.1) = {[ "A"; "B" ]}.
Proof.
  intros step final. split; [|split].
  - set (c0 := {| cell_body := []; cell_version := 0 |}).
    set (c1 := {| cell_body := ref_Encode recordA; cell_version := 1 |}).
    eapply nsteps_l.
    { apply (race_step_at _ _ _ _ c0 c0 [] affA Idle (HasRead [] 0%nat)
               [(affB, Idle)]). apply step_read. }
    eapply nsteps_l.
    { apply (race_step_at _ _ _ _ c0 c0 [(affA, HasRead [] 0%nat)] affB Idle
               (HasRead [] 0%nat) []). apply step_read. }
    eapply nsteps_l.
    { apply (race_step_at _ _ _ _ c0 c1 [] affA (HasRead [] 0%nat) Finished
               [(affB, HasRead [] 0%nat)]).
      by apply (step_store _ _ _ _ affA c0 [] 0%nat (ref_Encode recordA)). }
    eapply nsteps_l.
    { apply (race_step_at _ _ _ _ c1 c1 [(affA, Finished)] affB
               (HasRead [] 0%nat) Idle []).
      by apply (step_conflict _ _ _ _ affB c1 [] 0%nat
                  (ref_Encode {| OID := "h"; Length := 10;
                                 Nodes := Some {[ "B" := 2 ]};
                                 Type_ := "blob" |})). }
    eapply nsteps_l.
    { apply (race_step_at _ _ _ _ c1 c1 [(affA, Finished)] affB Idle
               (HasRead (ref_Encode recordA) 1%nat) []). apply step_read. }
    eapply nsteps_l.
    { apply (race_step_at _ _ _ _ c1 final.1 [(affA, Finished)] affB
               (HasRead (ref_Encode recordA) 1%nat) Finished []).
      apply (step_store _ _ _ _ affB c1 (ref_Encode recordA) 1%nat
               (ref_Encode recordAB)); [|done].
      unfold closureOf, recordBlobOwnership_cas.
      by rewrite (unmarshal_encode _ _ ref_codec_laws). }
    apply nsteps_O.
  - by repeat constructor.
  - unfold owners_of. simpl.
    rewrite (unmarshal_encode _ _ ref_codec_laws). by vm_compute.
Qed.

(** ** Concrete runs of the rest of the file *)

(** Of two owners, the one with the later timestamp is the most recent,
    whichever way the map is iterated. *)
Lemma mostRecent_example :
  (mostRecent [("B", 2); ("A", 1)]).2 = (mostRecent [("A", 1); ("B", 2)]).2 ∧
  ({[ "A" := 1; "B" := 2 ]} : gmap string Time)
    !! (mostRecent [("A", 1); ("B", 2)]).1
  = Some (mostRecent [("A", 1); ("B", 2)]).2.
Proof.
  destruct (mostRecent_is_latest {[ "A" := 1; "B" := 2 ]}
              [("A", 1); ("B", 2)])
    as (_ & Hin & _ & Horder).
  - by vm_compute.
  - split.
    + apply Horder. vm_compute. apply perm_swap.
    + apply Hin. by vm_compute.
Defined.

(** [A] affirms a blob that [B] owns: both are owners afterwards. *)
Lemma affirmation_keeps_other_owners_example :
  ∃ (st1 : Store) b1,
    recordBlobOwnership ref_Unmarshal ref_Encode (localA 1) "h" 10 false 5
      bucketOfB = Ret (st1, None) ∧
    getBlobOwnership ref_Unmarshal "h" st1 = (b1, None) ∧
    gomap_get (Nodes b1) "B" = Some 0 ∧
    gomap_get (Nodes b1) "A" = Some 5.
Proof.
  destruct (affirmation_keeps_other_owners ref_Unmarshal ref_Encode
              (localA 1) "h" 10 false 5 bucketOfB
              (ref_Encode (ownedBy (Some {[ "B" := 0 ]})))
              (ownedBy (Some {[ "B" := 0 ]})) {[ "B" := 0 ]})
    as (st1 & b1 & Hrun & Hget & Hother & _ & Hself).
  - apply ref_codec_laws.
  - by vm_compute.
  - apply ref_Unmarshal_Encode.
  - reflexivity.
  - exists st1, b1. split; [exact Hrun|]. split; [exact Hget|]. split.
    + rewrite (Hother "B"); [by vm_compute|discriminate].
    + apply Hself. left. by vm_compute.
Defined.

(** A corrupt record is replaced by one that names [A] alone. *)
Lemma affirmation_replaces_unreadable_record_example :
  ∃ st1 : Store,
    recordBlobOwnership ref_Unmarshal ref_Encode (localA 1) "h" 10 false 5
      bucketCorrupt = Ret (st1, None) ∧
    getBlobOwnership ref_Unmarshal "h" st1
      = (ownedBy (Some {[ "A" := 5 ]}), None).
Proof.
  destruct (affirmation_replaces_unreadable_record ref_Unmarshal ref_Encode
              (localA 1) "h" 10 false 5 bucketCorrupt)
    as (st1 & Hrun & Hget & _).
  - apply ref_codec_laws.
  - by vm_compute.
  - exists st1. split; [exact Hrun|exact Hget].
Defined.

(** Counters at 5 and 7 are at 6 and 8 after one access. *)
Lemma recordBlobAccess_example :
  counterAt (recordBlobAccess (localA 0) "h" bucketOfA) "/h/r" = Some 6%N ∧
  counterAt (recordBlobAccess (localA 0) "h" bucketOfA) "/A/r" = Some 8%N.
Proof.
  destruct (recordBlobAccess_counts_one_access (localA 0) "h" bucketOfA)
    as (_ & Hne & _).
  destruct Hne as (Hb & Hn & _ & _); [discriminate|].
  split.
  - apply (Hb 5%N); by vm_compute.
  - apply (Hn 7%N); by vm_compute.
Defined.

(** On the empty bucket both removals leave the bucket as it is; on a
    corrupt record the safe one reports the decoding error. *)
Lemma removal_of_missing_or_corrupt_record_example :
  removeBlobOwnershipRecord ref_Unmarshal ref_Encode (localA 1) "h" "B" ∅
    = Ret (∅, -1) ∧
  maybeRemoveBlobOwnership ref_Unmarshal ref_Encode (localA 1) "h" 0 ∅
    = Ret (∅, None) ∧
  maybeRemoveBlobOwnership ref_Unmarshal ref_Encode (localA 1) "h" 0
    bucketCorrupt = Ret (bucketCorrupt, Some ErrJSON).
Proof.
  destruct (removal_of_missing_or_corrupt_record ref_Unmarshal ref_Encode
              (localA 1) "h" "B" 0 ∅) as [Hmissing _].
  destruct (removal_of_missing_or_corrupt_record ref_Unmarshal ref_Encode
              (localA 1) "h" "B" 0 bucketCorrupt) as [_ Hcorrupt].
  destruct Hmissing as [H1 H2]; [reflexivity|].
  destruct Hcorrupt as [_ H3]; [by vm_compute|by vm_compute|].
  split; [exact H1|]. split; [exact H2|exact H3].
Defined.

(** Removing [B] twice from the record of [A] and [B]. *)
Lemma removeOwner_is_idempotent_example :
  ∃ st1 : Store,
    removeBlobOwnershipRecord ref_Unmarshal ref_Encode (localA 1) "h" "B"
      bucketOfAB = Ret (st1, 1) ∧
    removeBlobOwnershipRecord ref_Unmarshal ref_Encode (localA 1) "h" "B"
      st1 = Ret (st1, 1).
Proof.
  assert (Hrun :
    removeBlobOwnershipRecord ref_Unmarshal ref_Encode (localA 1) "h" "B"
      bucketOfAB
    = Ret (<["/h" := ref_Encode (ownedBy (Some {[ "A" := 0 ]}))]> bucketOfAB,
           1)) by (by vm_compute).
  destruct (removeOwner_is_idempotent ref_Unmarshal ref_Encode (localA 1)
              "h" "B" bucketOfAB _ 1 ref_codec_laws Hrun)
    as (n2 & Hagain & Hsame).
  eexists. split; [exact Hrun|].
  rewrite Hagain. rewrite Hsame; [reflexivity|]. vm_compute. by eexists.
Defined.

(** [A] stores a blob in a bucket that holds an old counter of it, and
    is removed again: the record and the counter are gone. *)
Lemma affirm_then_remove_example :
  ∃ st1 : Store,
    recordBlobOwnership ref_Unmarshal ref_Encode (localA 0) "h" 10 false 5
      {[ "/h/r" := showCounter 3 ]} = Ret (st1, None) ∧
    removeBlobOwnershipRecord ref_Unmarshal ref_Encode (localA 0) "h" "A"
      st1 = Ret (∅, 0).
Proof.
  destruct (affirm_then_remove_restores_bucket ref_Unmarshal ref_Encode
              (localA 0) "h" 10 false 5 {[ "/h/r" := showCounter 3 ]})
    as (st1 & Hrun & _ & Hremove & _).
  - apply ref_codec_laws.
  - by vm_compute.
  - exists st1. split; [exact Hrun|].
    etransitivity; [exact Hremove|]. by vm_compute.
Defined.

(** Half an hour after [A] has stored a blob, it may not drop it. *)
Lemma no_self_removal_within_the_hour_example :
  ∃ st1 : Store,
    recordBlobOwnership ref_Unmarshal ref_Encode (localA 0) "h" 10 false 0
      ∅ = Ret (st1, None) ∧
    maybeRemoveBlobOwnership ref_Unmarshal ref_Encode (localA 0) "h"
      (Hour / 2) st1 = Ret (st1, Some (ErrNew "too soon")).
Proof.
  assert (Hrun :
    recordBlobOwnership ref_Unmarshal ref_Encode (localA 0) "h" 10 false 0
      ∅
    = Ret ({[ "/h" := ref_Encode (ownedBy (Some {[ "A" := 0 ]})) ]}, None))
    by (by vm_compute).
  eexists. split; [exact Hrun|].
  apply (no_self_removal_within_the_hour ref_Unmarshal ref_Encode
           (localA 0) "h" 10 false 0 (Hour / 2) ∅ _ None).
  - apply ref_codec_laws.
  - exact Hrun.
  - right. intros b Hb. by vm_compute in Hb.
  - by vm_compute.
Defined.

(** [A] drops a blob that [A] and [B] own, with a minimum of one: the
    record changes, [B] is left as owner. *)
Lemma self_removal_changes_record_example :
  ∃ b,
    ref_Unmarshal (body_of bucketOfAB "/h") = Some b ∧
    1 ≤ gomap_len (Nodes (with_Nodes b (gomap_delete (Nodes b) "A"))) ∧
    gomap_get (Nodes (with_Nodes b (gomap_delete (Nodes b) "A"))) "B"
      = gomap_get (Nodes b) "B".
Proof.
  assert (Hrun :
    maybeRemoveBlobOwnership ref_Unmarshal ref_Encode (localA 1) "h"
      (2 * Hour) bucketOfAB
    = Ret (<["/h" := ref_Encode (ownedBy (Some {[ "B" := 0 ]}))]> bucketOfAB,
           None)) by (by vm_compute).
  destruct (self_removal_changes_record_only_above_minimum ref_Unmarshal
              ref_Encode (localA 1) "h" (2 * Hour) bucketOfAB _ None
              ref_codec_laws Hrun) as [_ Hchanged].
  destruct Hchanged as (b & Hdec & _ & Hmin & _ & Hother & _).
  - by vm_compute.
  - exists b. split; [exact Hdec|]. split; [exact Hmin|].
    apply Hother. discriminate.
Defined.

(** [A] does not own the blob of [B]: with a minimum of one the call is
    refused, with a minimum of zero it succeeds and rewrites the record
    as it is. *)
Lemma self_removal_by_non_owner_example :
  maybeRemoveBlobOwnership ref_Unmarshal ref_Encode (localA 1) "h"
    (2 * Hour) bucketOfB
  = Ret (bucketOfB, Some (ErrNew "Insufficient replicas")) ∧
  maybeRemoveBlobOwnership ref_Unmarshal ref_Encode (localA 0) "h"
    (2 * Hour) bucketOfB
  = Ret (bucketOfB, None).
Proof.
  split.
  - destruct (self_removal_by_non_owner ref_Unmarshal ref_Encode (localA 1)
                "h" (2 * Hour) bucketOfB
                (ref_Encode (ownedBy (Some {[ "B" := 0 ]})))
                (ownedBy (Some {[ "B" := 0 ]}))) as [Hrefused _].
    + by vm_compute.
    + apply ref_Encode_nonempty.
    + apply ref_Unmarshal_Encode.
    + by vm_compute.
    + by vm_compute.
    + apply Hrefused. by vm_compute.
  - destruct (self_removal_by_non_owner ref_Unmarshal ref_Encode (localA 0)
                "h" (2 * Hour) bucketOfB
                (ref_Encode (ownedBy (Some {[ "B" := 0 ]})))
                (ownedBy (Some {[ "B" := 0 ]}))) as [_ Hdone].
    + by vm_compute.
    + apply ref_Encode_nonempty.
    + apply ref_Unmarshal_Encode.
    + by vm_compute.
    + by vm_compute.
    + rewrite Hdone; [by vm_compute|by vm_compute|by vm_compute].
Defined.

(** With two candidates, one more replica asks the first of them; a
    negative count panics. *)
Lemma increaseReplicaCount_example :
  increaseReplicaCount rankInOrder (envWith (None, 200)) "h" 10 1 emptyWorld
  = Ret ({| store := ∅; queue := [acquireTask "h" "" "n1"]; trace := [] |},
         None) ∧
  increaseReplicaCount rankInOrder (envWith (None, 200)) "h" 10 (-1)
    emptyWorld
  = Panic "slice bounds out of range".
Proof.
  destruct (increaseReplicaCount_asks_first_candidates rankInOrder
              (envWith (None, 200)) "h" 10 1 emptyWorld ["n1"; "n2"]
              eq_refl) as [Hpos _].
  destruct (increaseReplicaCount_asks_first_candidates rankInOrder
              (envWith (None, 200)) "h" 10 (-1) emptyWorld ["n1"; "n2"]
              eq_refl) as [_ Hneg].
  split.
  - destruct Hpos as [Hrun _]; [lia|]. exact Hrun.
  - apply Hneg. lia.
Defined.

(** Five owners and a maximum of three: the view is asked once and the
    first two owners are asked to delete. *)
Lemma pruneExcessiveReplicas_example :
  ∃ w',
    pruneExcessiveReplicas id viewOfFive envDead (localA 1) emptyWorld
      = Ret (w', None) ∧
    queue w' = [removalTask "h" "a"; removalTask "h" "b"] ∧
    trace w' =
      [EvView "cbfs" "repcounts"
         {[ "descending" := PBool true; "reduce" := PBool false;
            "include_docs" := PBool true; "limit" := PInt 100;
            "endkey" := PInt 4; "stale" := PBool false ]}].
Proof.
  destruct (pruneExcessiveReplicas_queries_once_and_prunes_each_row id
              viewOfFive envDead (localA 1) emptyWorld) as (_ & Hnodes & _).
  destruct (Hnodes fiveNodes eq_refl) as [_ Hrows].
  destruct (Hrows [("/h", fiveOwners)] eq_refl)
    as (w' & Hrun & _ & Htrace & Hqueue).
  - repeat constructor. discriminate.
  - exists w'. split; [exact Hrun|]. split.
    + rewrite Hqueue. by vm_compute.
    + rewrite Htrace. reflexivity.
Defined.

(** A fetch and an acquire in the queue: the worker does not stop the
    process, and four steps are enough to empty the queue. *)
Lemma worker_known_commands_example :
  let w : World string :=
    {| store := ∅;
       queue := [ {| node := ""; cmd := fetchObjectCmd; oid := "h";
                     prevNode := "B" |};
                  acquireTask "h" "" "B" ];
       trace := [] |} in
  (∀ fuel msg,
     internodeTaskWorker ref_Unmarshal ref_Encode id fuel
       (envWith (None, 200)) (localA 1) w ≠ Fatal msg) ∧
  ((∃ w', internodeTaskWorker ref_Unmarshal ref_Encode id 4
            (envWith (None, 200)) (localA 1) w = Ret w' ∧ queue w' = []) ∨
   (∃ msg, internodeTaskWorker ref_Unmarshal ref_Encode id 4
             (envWith (None, 200)) (localA 1) w = Panic msg)).
Proof.
  intros w.
  destruct (worker_runs_known_commands_to_the_end ref_Unmarshal ref_Encode
              id (envWith (None, 200)) (localA 1) w) as [Hnofatal Hdrain].
  - repeat constructor; vm_compute; tauto.
  - split; [exact Hnofatal|]. apply Hdrain. simpl. lia.
Defined.

(** [B] is dead and fails to delete: it is struck from the record of
    the blob, [A] stays. *)
Lemma failed_removal_at_dead_node_example :
  ∃ w',
    runTask ref_Unmarshal ref_Encode id envDead (localA 1)
      (removalTask "h" "B")
      {| store := bucketOfAB; queue := []; trace := [] |} = Ret w' ∧
    trace w' = [EvDeleteBlob "B" "h"] ∧
    store w' !! "/A/r" = Some (showCounter 7).
Proof.
  destruct (failed_removal_at_dead_node_strips_owner ref_Unmarshal
              ref_Encode id envDead (localA 1) (removalTask "h" "B")
              {| store := bucketOfAB; queue := []; trace := [] |}
              ref_codec_laws eq_refl) as [_ Hdead].
  destruct Hdead as (w' & Hrun & _ & Htrace & Hkeys & _).
  - by eexists.
  - reflexivity.
  - exists w'. split; [exact Hrun|]. split; [exact Htrace|].
    rewrite Hkeys; [by vm_compute|discriminate|discriminate].
Defined.

(** A fetch of ["h"] that replaces the copy of [B]: the blob is pulled,
    then [B] is asked to delete its copy. *)
Lemma fetch_task_example :
  internodeTaskWorker ref_Unmarshal ref_Encode id 2 (envWith (None, 200))
    (localA 1) (queueBlobFetch "" "h" "B" emptyWorld)
  = Ret {| store := ∅; queue := [];
           trace := [EvRemotePull "h" 100; EvDeleteBlob "B" "h"] |}.
Proof.
  apply (fetch_task_pulls_then_asks_previous_owner_to_delete ref_Unmarshal
           ref_Encode id "" (envWith (None, 200)) (localA 1) "h" "B" "B"
           emptyWorld 2).
  - reflexivity.
  - reflexivity.
  - reflexivity.
  - discriminate.
  - reflexivity.
  - reflexivity.
  - lia.
Defined.

(** The race of [A] and [B] with one conflict ends with both as
    owners. *)
Lemma race_converges_example :
  ∃ b, ref_Unmarshal (ref_Encode recordAB) = Some b ∧
       gomap_keys (Nodes b) = list_to_set (aff_node <$> [affA; affB]).
Proof.
  destruct race_with_a_conflict as (Hsteps & Hdone & _).
  apply rtc_nsteps_2 in Hsteps.
  apply (race_converges ref_Unmarshal ref_Encode (configWith 1 3) "h"
           ref_codec_laws [affA; affB] _ ltac:(discriminate) Hsteps Hdone).
Defined.

(** That race takes six steps, below the bound of fourteen for two
    callers. *)
Lemma race_terminates_example :
  (6 ≤ length [affA; affB] * (2 * length [affA; affB] + 3))%nat.
Proof.
  destruct race_with_a_conflict as (Hsteps & _ & _).
  apply (race_terminates ref_Unmarshal ref_Encode (configWith 1 3) "h"
           [affA; affB] 6 _ Hsteps).
Defined.

(** The race of [A] and [B] one step before its end: [A] has stored,
    the store of [B] was refused and [B] has read what [A] wrote. *)
Lemma race_before_the_last_store :
  nsteps (race_step ref_Unmarshal ref_Encode (configWith 1 3) "h") 5
    (race_start [affA; affB])
    ({| cell_body := ref_Encode recordA; cell_version := 1 |},
     [(affA, Finished); (affB, HasRead (ref_Encode recordA) 1%nat)]).
Proof.
  set (c0 := {| cell_body := []; cell_version := 0 |}).
  set (c1 := {| cell_body := ref_Encode recordA; cell_version := 1 |}).
  eapply nsteps_l.
  { apply (race_step_at _ _ _ _ c0 c0 [] affA Idle (HasRead [] 0%nat)
             [(affB, Idle)]). apply step_read. }
  eapply nsteps_l.
  { apply (race_step_at _ _ _ _ c0 c0 [(affA, HasRead [] 0%nat)] affB Idle
             (HasRead [] 0%nat) []). apply step_read. }
  eapply nsteps_l.
  { apply (race_step_at _ _ _ _ c0 c1 [] affA (HasRead [] 0%nat) Finished
             [(affB, HasRead [] 0%nat)]).
    by apply (step_store _ _ _ _ affA c0 [] 0%nat (ref_Encode recordA)). }
  eapply nsteps_l.
  { apply (race_step_at _ _ _ _ c1 c1 [(affA, Finished)] affB
             (HasRead [] 0%nat) Idle []).
    by apply (step_conflict _ _ _ _ affB c1 [] 0%nat
                (ref_Encode {| OID := "h"; Length := 10;
                               Nodes := Some {[ "B" := 2 ]};
                               Type_ := "blob" |})). }
  eapply nsteps_l.
  { apply (race_step_at _ _ _ _ c1 c1 [(affA, Finished)] affB Idle
             (HasRead (ref_Encode recordA) 1%nat) []). apply step_read. }
  apply nsteps_O.
Qed.

(** In that state [B] can go on: its closure runs on the record that
    [A] wrote, and does not panic. *)
Lemma race_progress_example :
  ∃ s', race_step ref_Unmarshal ref_Encode (configWith 1 3) "h"
          ({| cell_body := ref_Encode recordA; cell_version := 1 |},
           [(affA, Finished); (affB, HasRead (ref_Encode recordA) 1%nat)])
          s'.
Proof.
  apply (race_progress ref_Unmarshal ref_Encode (configWith 1 3) "h"
           ref_codec_laws [affA; affB]).
  - apply (rtc_nsteps_2 5). apply race_before_the_last_store.
  - intros Hdone. inversion Hdone as [|? ? _ Hrest].
    inversion Hrest as [|? ? Hph _]. discriminate.
Defined.
